(** * Corepack: the [prepare] command

    A shallow embedding of [sources/commands/Prepare.ts].  The command calls
    into other files of the repository (the engine, [specUtils],
    [folderUtils]) and into the host platform ([path], [tar], [JSON]); these
    calls are gathered in the interface [Platform], and every statement about
    [execute] is proved for an arbitrary implementation of it.  The module
    [Reference] gives one implementation, written from the design document,
    on which the end-to-end properties (hydration round trip, activation
    persistence) are stated. *)

From Stdlib Require Import Ascii.
From stdpp Require Import base option list gmap strings.

(** ** Data model ([sources/types.ts] as used by the command) *)

Inductive SupportedPackageManagers : Type := Npm | Pnpm | Yarn.

#[global] Instance SupportedPackageManagers_eq_dec : EqDecision SupportedPackageManagers.
Proof. solve_decision. Defined.

Definition pmName (n : SupportedPackageManagers) : string :=
  match n with
  | Npm => "npm"
  | Pnpm => "pnpm"
  | Yarn => "yarn"
  end.

Record Descriptor : Type := mkDescriptor {
  dname : SupportedPackageManagers;
  range : string
}.

Record Locator : Type := mkLocator {
  lname : SupportedPackageManagers;
  reference : string
}.

Record InstallSpec : Type := mkInstallSpec {
  location : string
}.

(** Result of [specUtils.loadSpec]: a tagged union on [lookup.type]. *)
Inductive LoadSpecResult : Type :=
| NoProject
| NoSpec
| Found (spec : Descriptor).

(** What a JavaScript [throw] carries.  [UsageError] is clipanion's class,
    the only one the command raises itself; [Failure] stands for whatever a
    collaborator may throw. *)
Inductive Error : Type :=
| UsageError (message : string)
| Failure (message : string).

(** [output?: string | boolean] *)
Inductive OutputOption : Type :=
| OutputUndefined
| OutputBoolean (b : bool)
| OutputString (s : string).

Record PrepareCommand : Type := mkPrepareCommand {
  spec : option string;
  activate : bool;
  all : bool;
  output : OutputOption;
  json : bool
}.

(** An element of the array [specs]: [this.spec] (a string or [undefined])
    or a descriptor handed back by [getDefaultDescriptors]. *)
Inductive Request : Type :=
| RequestUndefined
| RequestString (raw : string)
| RequestDescriptor (d : Descriptor).

(** First argument of [tar.c]. *)
Record TarOptions : Type := mkTarOptions {
  gzip : bool;
  tar_cwd : string;
  file : string
}.

(** Every call that leaves the command, with what it answered. *)
Inductive Event : Type :=
| CallGetDefaultDescriptors (r : Error + list Descriptor)
| CallLoadSpec (dir : string) (r : Error + LoadSpecResult)
| CallResolveDescriptor (d : Descriptor) (r : Error + option Locator)
| CallEnsurePackageManager (l : Locator) (r : Error + InstallSpec)
| CallActivatePackageManager (l : Locator) (r : Error + unit)
| CallTar (o : TarOptions) (entries : list string) (r : Error + unit).

(** ** Collaborators

    [St] is the state of the machine the command runs on (cache root,
    activation file, project tree, network).  Asynchronous calls are awaited
    one at a time, so each is a state transformer that either answers or
    throws. *)
Class Platform (St : Type) : Type := {
  (* this.context.engine *)
  getDefaultDescriptors : St -> (Error + list Descriptor) * St;
  resolveDescriptor : Descriptor -> St -> (Error + option Locator) * St;
  ensurePackageManager : Locator -> St -> (Error + InstallSpec) * St;
  activatePackageManager : Locator -> St -> (Error + unit) * St;
  (* specUtils *)
  loadSpec : string -> St -> (Error + LoadSpecResult) * St;
  parseSpec : string -> string -> Error + Descriptor;
  (* folderUtils *)
  getInstallFolder : St -> string;
  (* node: path, tar, JSON *)
  path_join : string -> string -> string;
  path_relative : string -> string -> string;
  tar_c : TarOptions -> list string -> St -> (Error + unit) * St;
  JSON_stringify : string -> string
}.

(** The running command: the machine, what was written to
    [this.context.stdout], and the journal of collaborator calls. *)
Record World (St : Type) : Type := mkWorld {
  machine : St;
  stdout : list string;
  journal : list Event
}.
Arguments mkWorld {St} _ _ _.
Arguments machine {St} _.
Arguments stdout {St} _.
Arguments journal {St} _.

(** ** The command monad: state plus exceptions.  A thrown error keeps the
    state reached so far, as in JavaScript. *)
Definition M (St A : Type) : Type := World St -> (Error + A) * World St.

Definition ret {St A} (a : A) : M St A := fun w => (inr a, w).

Definition throw {St A} (e : Error) : M St A := fun w => (inl e, w).

Definition bind {St A B} (c : M St A) (k : A -> M St B) : M St B :=
  fun w =>
    match c w with
    | (inr a, w') => k a w'
    | (inl e, w') => (inl e, w')
    end.

#[global] Instance M_ret {St} : MRet (M St) := fun A a => ret a.
#[global] Instance M_bind {St} : MBind (M St) := fun A B k c => bind c k.

(** [await collaborator(...)]: run it on the machine and record the call. *)
Definition await {St A} (op : St -> (Error + A) * St)
    (ev : (Error + A) -> Event) : M St A :=
  fun w =>
    let '(r, m) := op (machine w) in
    (r, mkWorld m (stdout w) (journal w ++ [ev r])).

Definition liftE {St A} (r : Error + A) : M St A := fun w => (r, w).

Definition reads {St A} (f : St -> A) : M St A := fun w => (inr (f (machine w)), w).

(** [this.context.stdout.write(chunk)] *)
Definition stdout_write {St} (chunk : string) : M St unit :=
  fun w => (inr tt, mkWorld (machine w) (stdout w ++ [chunk]) (journal w)).

(** [for (const x of xs) body(x)]: a throw leaves the loop. *)
Fixpoint forOf {St A} (body : A -> M St unit) (xs : list A) : M St unit :=
  match xs with
  | [] => ret tt
  | x :: rest => body x ;; forOf body rest
  end.

(** ** String pieces of the command *)

Definition newline : string := String "010"%char EmptyString.

Definition msgAllWithSpec : string :=
  "The --all option cannot be used along with an explicit package manager specification".

Definition msgNoProject : string :=
  "Couldn't find a project in the local directory - please explicit the package manager to pack, or run this command from a valid project".

Definition msgNoSpec : string :=
  "The local project doesn't feature a 'packageManager' field - please explicit the package manager to pack, or update the manifest to reference it".

Definition msgResolveFailed (d : Descriptor) : string :=
  "Failed to successfully resolve '" +:+ range d +:+ "' to a valid "
    +:+ pmName (dname d) +:+ " release".

(** [`corepack-${resolved.name}-${resolved.reference}.tgz`] *)
Definition versionedName (resolved : Locator) : string :=
  "corepack-" +:+ pmName (lname resolved) +:+ "-" +:+ reference resolved +:+ ".tgz".

(** [`corepack-${resolved.name}.tgz`] *)
Definition versionlessName (resolved : Locator) : string :=
  "corepack-" +:+ pmName (lname resolved) +:+ ".tgz".

(** [<name>/<reference>]: where an install sits under the cache root. *)
Definition installPath (l : Locator) : string :=
  pmName (lname l) +:+ "/" +:+ reference l.

(** JavaScript truthiness of [this.output]: [undefined], [false] and the
    empty string are falsy. *)
Definition truthy (o : OutputOption) : bool :=
  match o with
  | OutputUndefined => false
  | OutputBoolean b => b
  | OutputString s => negb (String.eqb s "")
  end.

Definition isUndefined (r : Request) : bool :=
  match r with
  | RequestUndefined => true
  | _ => false
  end.

(** ** [PrepareCommand.execute] *)
Section Prepare.
Context {St : Type} `{Platform St}.
Variable this : PrepareCommand.
Variable cwd : string.          (* this.context.cwd *)

(** lines 60-77: which descriptor the request stands for *)
Definition requestSpec (request : Request) : M St Descriptor :=
  match request with
  | RequestUndefined =>
      lookup ← await (loadSpec cwd) (CallLoadSpec cwd);
      match lookup with
      | NoProject => throw (UsageError msgNoProject)
      | NoSpec => throw (UsageError msgNoSpec)
      | Found found => ret found
      end
  | RequestString raw => liftE (parseSpec raw "CLI arguments")
  | RequestDescriptor d => ret d
  end.

(** lines 92-96 *)
Definition fileName (request : Request) (resolved : Locator) : string :=
  match output this with
  | OutputString s => s
  | _ =>
      if negb (isUndefined request)
      then path_join cwd (versionedName resolved)
      else path_join cwd (versionlessName resolved)
  end.

(** lines 98-104 *)
Definition pack (request : Request) (resolved : Locator)
    (baseInstallFolder : string) (installSpec : InstallSpec) : M St unit :=
  let name := fileName request resolved in
  let opts := mkTarOptions true baseInstallFolder name in
  let entries := [path_relative baseInstallFolder (location installSpec)] in
  await (tar_c opts entries) (CallTar opts entries);;
  if json this
  then stdout_write (JSON_stringify name +:+ newline)
  else stdout_write ("Packed " +:+ name +:+ newline).

(** lines 86-87 *)
Definition activation (resolved : Locator) : M St unit :=
  if activate this
  then await (activatePackageManager resolved)
             (CallActivatePackageManager resolved)
  else ret tt.

(** lines 58-104: the body of the loop *)
Definition iteration (request : Request) : M St unit :=
  wanted ← requestSpec request;
  resolved ← await (resolveDescriptor wanted) (CallResolveDescriptor wanted);
  match resolved with
  | None => throw (UsageError (msgResolveFailed wanted))
  | Some resolved =>
      baseInstallFolder ← reads getInstallFolder;
      installSpec ← await (ensurePackageManager resolved)
                          (CallEnsurePackageManager resolved);
      activation resolved;;
      if negb (truthy (output this))
      then ret tt
      else pack request resolved baseInstallFolder installSpec
  end.

(** [this.spec] as an element of [specs] *)
Definition thisSpec : Request :=
  match spec this with
  | Some raw => RequestString raw
  | None => RequestUndefined
  end.

(** lines 53-55 *)
Definition specs : M St (list Request) :=
  if all this
  then ds ← await getDefaultDescriptors CallGetDefaultDescriptors;
       ret (map RequestDescriptor ds)
  else ret [thisSpec].

Definition execute : M St unit :=
  if all this && bool_decide (is_Some (spec this))
  then throw (UsageError msgAllWithSpec)
  else requests ← specs; forOf iteration requests.
End Prepare.

(** Modelled from the spec: the command-line framework that runs the command
    is not part of the sources at hand; section 7 of the design says that an
    error surfaced to the top level makes the process exit with 1. *)
Definition exitCode {A} (r : Error + A) : nat :=
  match r with
  | inl _ => 1
  | inr _ => 0
  end.

(** One invocation of the command line: nothing printed, nothing called yet. *)
Definition fresh {St} (m : St) : World St := mkWorld m [] [].

Definition run {St} `{Platform St}
    (this : PrepareCommand) (cwd : string) (m : St) : (Error + unit) * World St :=
  execute this cwd (fresh m).

(** ** Composing runs

    A computation only appends to what was printed and to the journal, so a
    run from any world is the run from a fresh one, put after what was
    there. *)
Definition after {St} (w0 w : World St) : World St :=
  mkWorld (machine w) (stdout w0 ++ stdout w) (journal w0 ++ journal w).

Definition Framed {St A} (c : M St A) : Prop :=
  forall w, c w = let '(r, w1) := c (fresh (machine w)) in (r, after w w1).

(** The runs of a [for ... of] loop, one iteration after the other, each
    told from a fresh world. *)
Inductive Loop {St A} (body : A -> M St unit)
    : list A -> St -> Error + unit -> World St -> Prop :=
| Loop_done m :
    Loop body [] m (inr tt) (fresh m)
| Loop_throw x rest m e w :
    body x (fresh m) = (inl e, w) ->
    Loop body (x :: rest) m (inl e) w
| Loop_next x rest m w1 r w2 :
    body x (fresh m) = (inr tt, w1) ->
    Loop body rest (machine w1) r w2 ->
    Loop body (x :: rest) m r (after w1 w2).

(** The four ways an invocation can go: the usage error of line 51, a
    failure to list the defaults, the loop over the defaults, or the single
    iteration for [this.spec]. *)
Inductive Invocation {St} `{Platform St} (this : PrepareCommand) (cwd : string)
    (m : St) : Error + unit -> World St -> Prop :=
| Invocation_conflict raw :
    all this = true -> spec this = Some raw ->
    Invocation this cwd m (inl (UsageError msgAllWithSpec)) (fresh m)
| Invocation_no_defaults e m0 :
    all this = true -> spec this = None ->
    getDefaultDescriptors m = (inl e, m0) ->
    Invocation this cwd m (inl e)
      (mkWorld m0 [] [CallGetDefaultDescriptors (inl e)])
| Invocation_all ds m0 r w :
    all this = true -> spec this = None ->
    getDefaultDescriptors m = (inr ds, m0) ->
    Loop (iteration this cwd) (map RequestDescriptor ds) m0 r w ->
    Invocation this cwd m r
      (after (mkWorld m0 [] [CallGetDefaultDescriptors (inr ds)]) w)
| Invocation_one r w :
    all this = false ->
    iteration this cwd (thisSpec this) (fresh m) = (r, w) ->
    Invocation this cwd m r w.

(** A property of a call and of the calls around it that still holds when
    more calls come before and after. *)
Definition Extensible (P : list Event -> Event -> list Event -> Prop) : Prop :=
  forall a before e later b, P before e later -> P (a ++ before) e (later ++ b).

(** A part of the machine that the engine and [loadSpec] never write,
    [activatePackageManager] apart. *)
Definition EngineLeavesAlone {St V} `{Platform St} (view : St -> V) : Prop :=
  (forall m, view (getDefaultDescriptors m).2 = view m) /\
  (forall d m, view (resolveDescriptor d m).2 = view m) /\
  (forall l m, view (ensurePackageManager l m).2 = view m) /\
  (forall dir m, view (loadSpec dir m).2 = view m).

(** Writing this one archive, with these options, does not write that part
    of the machine: on a disk, [file] is not where it is kept. *)
Definition ArchiveLeavesAlone {St V} `{Platform St} (view : St -> V)
    (o : TarOptions) (entries : list string) : Prop :=
  forall m, view (tar_c o entries m).2 = view m.

(** [path.relative] undoes [path.join] for this base and this relative
    path.  Node normalises both, so this is a fact about the two paths at
    hand and not a law. *)
Definition RelativeUndoesJoinAt {St} `{Platform St} (base rel : string) : Prop :=
  path_relative base (path_join base rel) = rel.

(** The layout of the install cache: [<install folder>/<name>/<reference>]. *)
Definition InstallLayout {St} `{Platform St} : Prop :=
  forall l m i m',
    ensurePackageManager l m = (inr i, m') ->
    location i = path_join (getInstallFolder m) (installPath l).

(** ** Reading a journal *)

(** The locators the engine resolved, in call order. *)
Fixpoint resolvedLocators (j : list Event) : list Locator :=
  match j with
  | [] => []
  | CallResolveDescriptor _ (inr (Some l)) :: rest => l :: resolvedLocators rest
  | _ :: rest => resolvedLocators rest
  end.

(** The descriptors handed to [resolveDescriptor], in call order. *)
Fixpoint resolveRequests (j : list Event) : list Descriptor :=
  match j with
  | [] => []
  | CallResolveDescriptor d _ :: rest => d :: resolveRequests rest
  | _ :: rest => resolveRequests rest
  end.

(** The [file] option of every [tar.c] call, in call order. *)
Fixpoint packedFiles (j : list Event) : list string :=
  match j with
  | [] => []
  | CallTar o _ _ :: rest => file o :: packedFiles rest
  | _ :: rest => packedFiles rest
  end.

(** [mentions part whole]: [part] occurs inside [whole]. *)
Definition mentions (part whole : string) : Prop :=
  exists before after, whole = before +:+ part +:+ after.

(** The files of the [tar.c] calls that completed, in call order. *)
Fixpoint archivedFiles (j : list Event) : list string :=
  match j with
  | [] => []
  | CallTar o _ (inr _) :: rest => file o :: archivedFiles rest
  | _ :: rest => archivedFiles rest
  end.

(** The locators whose install completed, in call order. *)
Fixpoint ensuredLocators (j : list Event) : list Locator :=
  match j with
  | [] => []
  | CallEnsurePackageManager l (inr _) :: rest => l :: ensuredLocators rest
  | _ :: rest => ensuredLocators rest
  end.

(** The locators whose activation completed, in call order. *)
Fixpoint activatedLocators (j : list Event) : list Locator :=
  match j with
  | [] => []
  | CallActivatePackageManager l (inr _) :: rest => l :: activatedLocators rest
  | _ :: rest => activatedLocators rest
  end.

(** The error a call was answered with, if it threw. *)
Definition thrownBy (e : Event) : option Error :=
  match e with
  | CallGetDefaultDescriptors (inl x)
  | CallLoadSpec _ (inl x)
  | CallResolveDescriptor _ (inl x)
  | CallEnsurePackageManager _ (inl x)
  | CallActivatePackageManager _ (inl x)
  | CallTar _ _ (inl x) => Some x
  | _ => None
  end.

(** Lines 100-104: what is printed once [name] is packed. *)
Definition outputLine {St} `{Platform St} (this : PrepareCommand) (name : string)
    : string :=
  if json this
  then JSON_stringify name +:+ newline
  else "Packed " +:+ name +:+ newline.

(** The same command line with [--json] set or not. *)
Definition withJson (b : bool) (this : PrepareCommand) : PrepareCommand :=
  mkPrepareCommand (spec this) (activate this) (all this) (output this) b.

(** ** String helpers used by the reference machine *)

(** Cut [s] at the first occurrence of [c]. *)
Fixpoint splitAtChar (c : ascii) (s : string) : option (string * string) :=
  match s with
  | EmptyString => None
  | String a rest =>
      if Ascii.eqb a c then Some (EmptyString, rest)
      else match splitAtChar c rest with
           | Some (l, r) => Some (String a l, r)
           | None => None
           end
  end.

Fixpoint stripPrefix (p s : string) : option string :=
  match p with
  | EmptyString => Some s
  | String a p' =>
      match s with
      | String b s' => if Ascii.eqb a b then stripPrefix p' s' else None
      | EmptyString => None
      end
  end.

Fixpoint allDigits (s : string) : bool :=
  match s with
  | EmptyString => true
  | String a rest =>
      match Ascii.is_nat a with
      | Some _ => allDigits rest
      | None => false
      end
  end.

Definition isNumber (s : string) : bool := negb (String.eqb s "") && allDigits s.

(** [major.minor.patch], optionally followed by [-prerelease]. *)
Definition isExactVersion (v : string) : bool :=
  let core :=
    match splitAtChar "-" v with
    | Some (c, pre) => if String.eqb pre "" then "" else c
    | None => v
    end in
  match splitAtChar "." core with
  | Some (major, rest) =>
      match splitAtChar "." rest with
      | Some (minor, patch) => isNumber major && isNumber minor && isNumber patch
      | None => false
      end
  | None => false
  end.

Definition parseName (s : string) : option SupportedPackageManagers :=
  if String.eqb s "npm" then Some Npm
  else if String.eqb s "pnpm" then Some Pnpm
  else if String.eqb s "yarn" then Some Yarn
  else None.

Definition supportedNames : list SupportedPackageManagers := [Npm; Pnpm; Yarn].

(** * A reference machine

    The engine, [specUtils], [folderUtils] and the [hydrate] and dispatch
    entry points are not among the sources at hand.  This module writes them
    down from the design document, on a machine whose disk holds one cache
    root, so that the command can be run end to end. *)
Module Reference.

(** The files of one directory: relative path and bytes. *)
Definition Tree : Type := list (string * string).

(** An entry of the install cache (design, section 3). *)
Record InstallRecord : Type := mkInstallRecord {
  tree : Tree;
  complete : bool
}.

(** A memoised range answer that has not expired; [recent] says whether
    it is still fresh enough to be served while the network is up. *)
Record ResolutionCacheEntry : Type := mkResolutionCacheEntry {
  answer : Locator;
  recent : bool
}.

(** What [tar.c] wrote: each archived directory, by its path relative to
    the [cwd] option. *)
Definition Archive : Type := list (string * Tree).

Inductive NetworkRequest : Type :=
| FetchVersions (d : Descriptor)
| FetchArchive (l : Locator).

(** What the machine does not own: the embedded table of defaults, the
    registry, the projects on disk, and what an installed package manager
    does when spawned. *)
Record Surroundings : Type := mkSurroundings {
  defaultVersion : SupportedPackageManagers -> string;
  registryAnswer : Descriptor -> option string;
  registryArchive : Locator -> option (Tree * bool);
  manifestsAbove : string -> list (option Descriptor);
  transparentCommand : list string -> bool;
  entryPoint : Tree -> list string -> option (string * nat)
}.

Record Machine : Type := mkMachine {
  cacheRoot : string;
  installs : gmap string InstallRecord;
  activationState : gmap string Locator;
  resolutionCache : gmap (string * string) ResolutionCacheEntry;
  archives : gmap string Archive;
  networkEnabled : bool;
  traffic : list NetworkRequest;
  surroundings : Surroundings
}.

Definition withInstalls (i : gmap string InstallRecord) (m : Machine) : Machine :=
  mkMachine (cacheRoot m) i (activationState m) (resolutionCache m)
            (archives m) (networkEnabled m) (traffic m) (surroundings m).

Definition withActivationState (a : gmap string Locator) (m : Machine) : Machine :=
  mkMachine (cacheRoot m) (installs m) a (resolutionCache m)
            (archives m) (networkEnabled m) (traffic m) (surroundings m).

Definition withResolutionCache (c : gmap (string * string) ResolutionCacheEntry)
    (m : Machine) : Machine :=
  mkMachine (cacheRoot m) (installs m) (activationState m) c
            (archives m) (networkEnabled m) (traffic m) (surroundings m).

Definition withArchives (a : gmap string Archive) (m : Machine) : Machine :=
  mkMachine (cacheRoot m) (installs m) (activationState m) (resolutionCache m)
            a (networkEnabled m) (traffic m) (surroundings m).

Definition withNetworkEnabled (b : bool) (m : Machine) : Machine :=
  mkMachine (cacheRoot m) (installs m) (activationState m) (resolutionCache m)
            (archives m) b (traffic m) (surroundings m).

Definition request (q : NetworkRequest) (m : Machine) : Machine :=
  mkMachine (cacheRoot m) (installs m) (activationState m) (resolutionCache m)
            (archives m) (networkEnabled m) (traffic m ++ [q]) (surroundings m).

(** Modelled from the spec: [specUtils.parseSpec] is missing.  It splits
    [name@range[+integrity]] and fails when the separator is missing or the
    name is not one of the three supported ones; a descriptor's range is
    never empty. *)
Definition parseSpec (raw source : string) : Error + Descriptor :=
  match splitAtChar "@" raw with
  | None =>
      inl (Failure ("Invalid package manager specification in " +:+ source))
  | Some (name, rest) =>
      let wanted :=
        match splitAtChar "+" rest with
        | Some (r, _) => r
        | None => rest
        end in
      match parseName name with
      | None =>
          inl (Failure ("Unsupported package manager specification (" +:+ raw +:+ ")"))
      | Some n =>
          if String.eqb wanted ""
          then inl (Failure ("Invalid package manager specification in " +:+ source))
          else inr (mkDescriptor n wanted)
      end
  end.

(** Modelled from the spec: [specUtils.loadSpec] is missing.  Walking up
    from the start directory, [manifestsAbove] lists the manifests met,
    deepest first, each with its [packageManager] field if it has one. *)
Definition loadSpec (startDir : string) (m : Machine)
    : (Error + LoadSpecResult) * Machine :=
  let met := manifestsAbove (surroundings m) startDir in
  match omap id met with
  | d :: _ => (inr (Found d), m)
  | [] =>
      match met with
      | [] => (inr NoProject, m)
      | _ :: _ => (inr NoSpec, m)
      end
  end.

(** Modelled from the spec: [Engine.resolveDescriptor] is missing (design,
    section 4.2, steps 1 to 4). *)
Definition resolveDescriptor (d : Descriptor) (m : Machine)
    : (Error + option Locator) * Machine :=
  if isExactVersion (range d)
  then (inr (Some (mkLocator (dname d) (range d))), m)
  else
    let key := (pmName (dname d), range d) in
    let askRegistry :=
      if networkEnabled m
      then
        let m1 := request (FetchVersions d) m in
        match registryAnswer (surroundings m) d with
        | Some v =>
            let l := mkLocator (dname d) v in
            (inr (Some l),
             withResolutionCache
               (<[key := mkResolutionCacheEntry l true]> (resolutionCache m1)) m1)
        | None => (inr None, m1)
        end
      else (inr None, m) in
    match resolutionCache m !! key with
    | Some entry =>
        if negb (networkEnabled m) || recent entry
        then (inr (Some (answer entry)), m)
        else askRegistry
    | None => askRegistry
    end.

(** Modelled from the spec: [folderUtils.getInstallFolder] is missing; the
    installs sit directly under the cache root. *)
Definition getInstallFolder (m : Machine) : string := cacheRoot m.

(** Node's [path.join] and [path.relative], on normalised paths. *)
Definition path_join (a b : string) : string := a +:+ "/" +:+ b.

Definition path_relative (from to : string) : string :=
  match stripPrefix (from +:+ "/") to with
  | Some rest => rest
  | None => to
  end.

(** Modelled from the spec: [Engine.ensurePackageManager] is missing
    (design, section 4.3); one process at a time, so the lock and the
    temporary directory do not show. *)
Definition ensurePackageManager (l : Locator) (m : Machine)
    : (Error + InstallSpec) * Machine :=
  let key := installPath l in
  let found := mkInstallSpec (path_join (getInstallFolder m) key) in
  let install :=
    if networkEnabled m
    then
      let m1 := request (FetchArchive l) m in
      match registryArchive (surroundings m) l with
      | Some (t, true) =>
          (inr found, withInstalls (<[key := mkInstallRecord t true]> (installs m1)) m1)
      | Some (_, false) => (inl (Failure "Integrity check failed"), m1)
      | None => (inl (Failure "No such release"), m1)
      end
    else (inl (Failure "Network access disabled by the environment"), m) in
  match installs m !! key with
  | Some r => if complete r then (inr found, m) else install
  | None => install
  end.

(** Modelled from the spec: [Engine.activatePackageManager] is missing; it
    overwrites the entry of exactly one name (design, section 4.4). *)
Definition activatePackageManager (l : Locator) (m : Machine)
    : (Error + unit) * Machine :=
  (inr tt, withActivationState (<[pmName (lname l) := l]> (activationState m)) m).

Definition defaultDescriptor (n : SupportedPackageManagers) (m : Machine) : Descriptor :=
  match activationState m !! pmName n with
  | Some l => mkDescriptor n (reference l)
  | None => mkDescriptor n (defaultVersion (surroundings m) n)
  end.

(** Modelled from the spec: [Engine.getDefaultDescriptors] is missing; one
    descriptor per supported name, the activated locator first, else the
    embedded default. *)
Definition getDefaultDescriptors (m : Machine)
    : (Error + list Descriptor) * Machine :=
  (inr (map (fun n => defaultDescriptor n m) supportedNames), m).

(** [tar.c({cwd, file}, entries)]: archive the named directories of [cwd]. *)
Definition tar_c (o : TarOptions) (entries : list string) (m : Machine)
    : (Error + unit) * Machine :=
  if String.eqb (tar_cwd o) (cacheRoot m)
  then
    match mapM (fun e => (fun r => (e, tree r)) <$> installs m !! e) entries with
    | Some content => (inr tt, withArchives (<[file o := content]> (archives m)) m)
    | None => (inl (Failure "ENOENT"), m)
    end
  else (inl (Failure "ENOENT"), m).

Definition quote : string := String "034"%char EmptyString.

(** [JSON.stringify] of a string that needs no escaping. *)
Definition JSON_stringify (s : string) : string := quote +:+ s +:+ quote.

#[global] Instance platform : Platform Machine :=
  Build_Platform Machine
    getDefaultDescriptors resolveDescriptor ensurePackageManager
    activatePackageManager loadSpec parseSpec getInstallFolder
    path_join path_relative tar_c JSON_stringify.

(** Modelled from the spec: the [hydrate] command is missing (design,
    section 4.6).  It extracts the archive under the cache root, trusting
    its relative layout, marks each install complete and reports the name
    and version found in the layout; it never asks the network. *)
Definition hydrate (archivePath : string) (m : Machine)
    : (Error + string) * Machine :=
  match archives m !! archivePath with
  | None => (inl (Failure "ENOENT"), m)
  | Some content =>
      match content with
      | [] => (inl (Failure "Empty archive"), m)
      | (first, _) :: _ =>
          match splitAtChar "/" first with
          | None => (inl (Failure "Unexpected archive layout"), m)
          | Some (name, version) =>
              let extracted :=
                foldl (fun i e => <[e.1 := mkInstallRecord e.2 true]> i)
                      (installs m) content in
              (inr ("Hydrated " +:+ name +:+ "@" +:+ version +:+ newline),
               withInstalls extracted m)
          end
      end
  end.

(** Modelled from the spec: the dispatcher is missing (design, section
    4.5).  The answer is what the child printed and its exit code. *)
Definition dispatch (invoked : SupportedPackageManagers) (args : list string)
    (explicit : option Descriptor) (cwd : string) (m : Machine)
    : (Error + string * nat) * Machine :=
  let effective :=
    match explicit with
    | Some d => d
    | None =>
        match (loadSpec cwd m).1 with
        | inr (Found d) => d
        | _ => defaultDescriptor invoked m
        end
    end in
  if negb (bool_decide (dname effective = invoked))
     && negb (transparentCommand (surroundings m) args)
  then (inl (Failure "This project is configured to use another package manager"), m)
  else
    match resolveDescriptor effective m with
    | (inl e, m1) => (inl e, m1)
    | (inr None, m1) => (inl (Failure "Failed to resolve"), m1)
    | (inr (Some l), m1) =>
        match ensurePackageManager l m1 with
        | (inl e, m2) => (inl e, m2)
        | (inr _, m2) =>
            match installs m2 !! installPath l with
            | None => (inl (Failure "Failed to execute"), m2)
            | Some r =>
                match entryPoint (surroundings m2) (tree r) args with
                | None => (inl (Failure "Failed to execute"), m2)
                | Some answer => (inr answer, m2)
                end
            end
        end
    end.

(** A machine with an empty cache root, the network up and a registry that
    serves every exact version of every manager.  On its disk [/app] is a
    project that declares [yarn@2.2.2], [/bare] is a project without the
    field, and no other directory has a manifest above it. *)
Definition release (l : Locator) : Tree :=
  [("package.json", installPath l)].

Definition world : Surroundings :=
  mkSurroundings
    (fun n => match n with Npm => "6.14.2" | Pnpm => "5.4.0" | Yarn => "1.22.4" end)
    (fun _ => None)
    (fun l => if isExactVersion (reference l) then Some (release l, true) else None)
    (fun dir =>
       if String.eqb dir "/app" then [Some (mkDescriptor Yarn "2.2.2")]
       else if String.eqb dir "/bare" then [None]
       else [])
    (fun _ => false)
    (fun t args =>
       match t with
       | [(_, path)] =>
           match splitAtChar "/" path with
           | Some (_, v) => Some (v +:+ newline, 0)
           | None => None
           end
       | _ => None
       end).

Definition emptyMachine : Machine :=
  mkMachine "/home/.corepack" ∅ ∅ ∅ ∅ true [] world.
End Reference.

(** ** Invocations used as examples *)
Module Scenarios.
Import Reference.

(** [prepare yarn@2.2.2 --all] *)
Definition conflicting : PrepareCommand :=
  mkPrepareCommand (Some "yarn@2.2.2") false true OutputUndefined false.

(** [prepare yarn@^2]: a range the registry of [world] has no answer for *)
Definition unsatisfiable : PrepareCommand :=
  mkPrepareCommand (Some "yarn@^2") false false OutputUndefined false.

(** [prepare] *)
Definition bare : PrepareCommand :=
  mkPrepareCommand None false false OutputUndefined false.

(** [prepare yarn@2.2.2 -o] *)
Definition packing : PrepareCommand :=
  mkPrepareCommand (Some "yarn@2.2.2") false false (OutputBoolean true) false.

(** [prepare yarn@1.0.0 --activate] *)
Definition activating : PrepareCommand :=
  mkPrepareCommand (Some "yarn@1.0.0") true false OutputUndefined false.

(** [prepare --all -o] *)
Definition packingAll : PrepareCommand :=
  mkPrepareCommand None false true (OutputBoolean true) false.

(** [prepare yarn@2.2.2 --output=] *)
Definition emptyPath : PrepareCommand :=
  mkPrepareCommand (Some "yarn@2.2.2") false false (OutputString "") false.

(** [prepare yarn@2.2.2 --output=yarn.tgz] *)
Definition namedArchive : PrepareCommand :=
  mkPrepareCommand (Some "yarn@2.2.2") false false (OutputString "yarn.tgz") false.

(** [prepare -o] *)
Definition packingProject : PrepareCommand :=
  mkPrepareCommand None false false (OutputBoolean true) false.

(** The same disk seen with a new, empty cache root and no network. *)
Definition elsewhere (m : Machine) : Machine :=
  mkMachine "/elsewhere/.corepack" ∅ ∅ ∅ (archives m) false [] (surroundings m).

(** The machine after [prepare npm@6.14.2], then cut from the network. *)
Definition npmOnly : Machine :=
  withNetworkEnabled false
    (machine (run (mkPrepareCommand (Some "npm@6.14.2") false false
                                    OutputUndefined false)
                  "/proj" emptyMachine).2).
End Scenarios.

(** ** More invocations used as examples *)
Module MoreScenarios.
Import Reference.

(** [prepare bun@1.0.0]: a manager outside the supported set *)
Definition unsupported : PrepareCommand :=
  mkPrepareCommand (Some "bun@1.0.0") false false OutputUndefined false.

(** [prepare yarn@2.2.2 --activate -o] *)
Definition everything : PrepareCommand :=
  mkPrepareCommand (Some "yarn@2.2.2") true false (OutputBoolean true) false.
End MoreScenarios.

(** * Proofs *)

(** ** The journal and the output only grow *)

Lemma after_fresh_l {St} (w : World St) : after w (fresh (machine w)) = w.
Proof. destruct w; unfold after; simpl. by rewrite !app_nil_r. Qed.

Lemma after_assoc {St} (w0 w1 w2 : World St) :
  after w0 (after w1 w2) = after (after w0 w1) w2.
Proof. unfold after; simpl. by rewrite !app_assoc. Qed.

Lemma Framed_ret {St A} (a : A) : Framed (St:=St) (ret a).
Proof. intros w. unfold ret; simpl. by rewrite after_fresh_l. Qed.

Lemma Framed_throw {St A} (e : Error) : Framed (St:=St) (A:=A) (throw e).
Proof. intros w. unfold throw; simpl. by rewrite after_fresh_l. Qed.

Lemma Framed_liftE {St A} (r : Error + A) : Framed (St:=St) (liftE r).
Proof. intros w. unfold liftE; simpl. by rewrite after_fresh_l. Qed.

Lemma Framed_reads {St A} (f : St -> A) : Framed (reads f).
Proof. intros w. unfold reads; simpl. by rewrite after_fresh_l. Qed.

Lemma Framed_stdout_write {St} (chunk : string) : Framed (St:=St) (stdout_write chunk).
Proof. intros w. unfold stdout_write, after; simpl. by rewrite app_nil_r. Qed.

Lemma Framed_await {St A} (op : St -> (Error + A) * St) ev : Framed (await op ev).
Proof.
  intros w. unfold await, after; simpl.
  destruct (op (machine w)) as [r m]; simpl. by rewrite app_nil_r.
Qed.

Lemma Framed_bind {St A B} (c : M St A) (k : A -> M St B) :
  Framed c -> (forall a, Framed (k a)) -> Framed (bind c k).
Proof.
  intros Hc Hk w. unfold bind. rewrite (Hc w).
  destruct (c (fresh (machine w))) as [[e|a] w1]; simpl; [done|].
  rewrite (Hk a (after w w1)), (Hk a w1). simpl.
  destruct (k a (fresh (machine w1))) as [r w2].
  by rewrite after_assoc.
Qed.

Lemma Framed_forOf {St A} (body : A -> M St unit) xs :
  (forall x, Framed (body x)) -> Framed (forOf body xs).
Proof.
  intros Hb. induction xs as [|x xs IH]; simpl.
  - apply Framed_ret.
  - apply Framed_bind; auto.
Qed.

Ltac framed :=
  repeat first
    [ apply Framed_bind; [|intros ?]
    | apply Framed_forOf; intros ?
    | apply Framed_ret | apply Framed_throw | apply Framed_liftE
    | apply Framed_reads | apply Framed_stdout_write | apply Framed_await
    | match goal with |- Framed (match ?x with _ => _ end) => destruct x end
    | match goal with |- Framed (if ?x then _ else _) => destruct x end ].

(** Running one iteration symbolically: every collaborator answer gets a
    name and the world reached is written out. *)
Ltac unfold_run :=
  unfold run, execute, iteration, requestSpec, activation, pack, specs,
    mbind, M_bind, bind, await, reads, liftE, throw, ret, stdout_write, fresh in *;
  simpl in *.

Ltac run_iteration :=
  repeat progress unfold_run; repeat (case_match; simplify_eq/=); simplify_eq/=.

(** Locating an event in a journal that is written out. *)
Ltac locate :=
  repeat match goal with
  | H : _ = ?b ++ _ :: _ |- _ => is_var b; destruct b; simplify_eq/=
  | H : ?b ++ _ :: _ = _ |- _ => is_var b; destruct b; simplify_eq/=
  end.

Lemma string_app_assoc (a b c : string) : (a +:+ b) +:+ c = a +:+ (b +:+ c).
Proof.
  induction a as [|x a IH]; [done|].
  change (String x ((a +:+ b) +:+ c) = String x (a +:+ (b +:+ c))).
  by rewrite IH.
Qed.

Lemma split_after {A} (l1 l2 before later : list A) (x : A) :
  l1 ++ l2 = before ++ x :: later ->
  (exists mid, l1 = before ++ x :: mid /\ later = mid ++ l2) \/
  (exists mid, before = l1 ++ mid /\ l2 = mid ++ x :: later).
Proof.
  revert before. induction l1 as [|a l1 IH]; intros before Heq; simpl in *.
  - right. by exists before.
  - destruct before as [|b before]; injection Heq as -> Heq.
    + left. by exists l1.
    + destruct (IH _ Heq) as [(mid & -> & ->)|(mid & -> & ->)].
      * left. by exists mid.
      * right. by exists mid.
Qed.

Section PrepareFacts.
Context {St : Type} `{Platform St}.
Variable this : PrepareCommand.
Variable cwd : string.

Lemma Framed_iteration request : Framed (iteration this cwd request).
Proof.
  unfold iteration, requestSpec, activation, pack, mbind, M_bind. framed.
Qed.

Lemma Framed_execute : Framed (execute this cwd).
Proof.
  unfold execute, specs, mbind, M_bind.
  destruct (all this && _); [apply Framed_throw|].
  apply Framed_bind; [framed|].
  intros requests. apply Framed_forOf, Framed_iteration.
Qed.

(** A loop is the chain of its iterations. *)
Lemma forOf_Loop {A} (body : A -> M St unit) xs m r w :
  (forall x, Framed (body x)) ->
  forOf body xs (fresh m) = (r, w) -> Loop body xs m r w.
Proof.
  intros Hb. revert m r w. induction xs as [|x xs IH]; intros m r w; simpl.
  - unfold ret. intros [= <- <-]. constructor.
  - unfold mbind, M_bind, bind.
    destruct (body x (fresh m)) as [[e|[]] w1] eqn:Hx.
    + intros [= <- <-]. by constructor.
    + rewrite (Framed_forOf body xs Hb w1).
      destruct (forOf body xs (fresh (machine w1))) as [r2 w2] eqn:Hrest.
      intros [= <- <-]. econstructor; eauto.
Qed.

Lemma run_Invocation m r w :
  run this cwd m = (r, w) -> Invocation this cwd m r w.
Proof.
  unfold run, execute. intros Hrun.
  destruct (all this) eqn:Hall; simpl in Hrun.
  - destruct (spec this) as [raw|] eqn:Hspec.
    + rewrite bool_decide_true in Hrun by eauto.
      unfold throw in Hrun. simplify_eq. by econstructor.
    + rewrite bool_decide_false in Hrun by (by intros [? ?]).
      unfold specs, mbind, M_bind, bind, await, ret in Hrun.
      rewrite Hall in Hrun. simpl in Hrun.
      destruct (getDefaultDescriptors m) as [[e|ds] m0] eqn:Hds.
      * simplify_eq. by constructor.
      * rewrite (Framed_forOf _ _ Framed_iteration) in Hrun. simpl in Hrun.
        destruct (forOf _ _ (fresh m0)) as [r1 w1] eqn:Hloop.
        simplify_eq.
        apply forOf_Loop in Hloop; [|apply Framed_iteration].
        by constructor.
  - unfold specs, mbind, M_bind, bind, ret in Hrun. rewrite Hall in Hrun.
    simpl in Hrun. constructor; [done|].
    unfold mbind, M_bind, bind, ret in Hrun.
    destruct (iteration this cwd (thisSpec this) (fresh m)) as [[e|[]] w1];
      by simplify_eq.
Qed.
End PrepareFacts.

(** ** Claims about the command, for any platform *)
Section Claims.
Context {St : Type} `{Platform St}.
Variable this : PrepareCommand.
Variable cwd : string.

(** C3. When [--all] comes with an explicit descriptor the command throws
    the usage error of line 51 and exits with 1; the world is the one it
    started in: no collaborator was called, nothing was printed and the
    machine is untouched. *)
Theorem all_with_descriptor_is_refused m raw :
  all this = true ->
  spec this = Some raw ->
  run this cwd m = (inl (UsageError msgAllWithSpec), fresh m) /\
  exitCode (run this cwd m).1 = 1 /\
  journal (run this cwd m).2 = [] /\
  stdout (run this cwd m).2 = [] /\
  machine (run this cwd m).2 = m.
Proof.
  intros Hall Hspec.
  assert (run this cwd m = (inl (UsageError msgAllWithSpec), fresh m)) as ->; [|done].
  unfold run, execute. by rewrite Hall, Hspec.
Qed.

Lemma iteration_unresolved request m r w d before later :
  iteration this cwd request (fresh m) = (r, w) ->
  journal w = before ++ CallResolveDescriptor d (inr None) :: later ->
  later = [] /\ r = inl (UsageError (msgResolveFailed d)).
Proof. intros Hrun Hj. run_iteration; locate; done. Qed.

Lemma Loop_unresolved requests m r w d before later :
  Loop (iteration this cwd) requests m r w ->
  journal w = before ++ CallResolveDescriptor d (inr None) :: later ->
  later = [] /\ r = inl (UsageError (msgResolveFailed d)).
Proof.
  intros Hloop. revert before.
  induction Hloop as [m|x rest m e w Hx|x rest m w1 r w2 Hx Hloop IH];
    intros before Hj.
  - by destruct before.
  - eapply iteration_unresolved; eauto.
  - simpl in Hj. apply split_after in Hj as [(mid & Hj & _)|(mid & -> & Hj)].
    + by destruct (iteration_unresolved _ _ _ _ _ _ _ Hx Hj).
    + eauto.
Qed.

(** C4. Whenever [resolveDescriptor] answers [null] for a descriptor, that
    call is the last thing the command does (so neither
    [ensurePackageManager] nor [activatePackageManager] follows), the
    command throws the error of line 81, whose message names the range and
    the manager, and the exit code is 1. *)
Theorem unresolved_descriptor_aborts m r w d before later :
  run this cwd m = (r, w) ->
  journal w = before ++ CallResolveDescriptor d (inr None) :: later ->
  later = [] /\
  r = inl (UsageError (msgResolveFailed d)) /\
  exitCode r = 1 /\
  mentions (range d) (msgResolveFailed d) /\
  mentions (pmName (dname d)) (msgResolveFailed d).
Proof.
  intros Hrun Hj.
  assert (later = [] /\ r = inl (UsageError (msgResolveFailed d))) as [-> ->].
  { apply run_Invocation in Hrun.
    destruct Hrun as [raw ? ?|e m0 ? ? ?|ds m0 r w ? ? ? Hloop|r w ? Hit].
    - by destruct before.
    - simpl in Hj. locate.
    - simpl in Hj. destruct before as [|b before]; simplify_eq/=.
      eapply Loop_unresolved; eauto.
    - eapply iteration_unresolved; eauto. }
  repeat split; trivial.
  - exists "Failed to successfully resolve '",
      ("' to a valid " +:+ pmName (dname d) +:+ " release"). done.
  - exists ("Failed to successfully resolve '" +:+ range d +:+ "' to a valid "),
      " release". unfold msgResolveFailed.
    by rewrite !string_app_assoc.
Qed.

(** C5. Without [--all] and without a descriptor argument, the answer of
    [loadSpec] for the working directory decides the outcome: [NoProject]
    and [NoSpec] each throw their usage error (exit code 1) with no other
    call made, and [Found d] goes on to resolve exactly [d], the only
    descriptor the command ever resolves. *)
Theorem manifest_lookup_decides m :
  all this = false ->
  spec this = None ->
  match loadSpec cwd m with
  | (inr NoProject, m') =>
      run this cwd m =
        (inl (UsageError msgNoProject),
         mkWorld m' [] [CallLoadSpec cwd (inr NoProject)]) /\
      exitCode (run this cwd m).1 = 1
  | (inr NoSpec, m') =>
      run this cwd m =
        (inl (UsageError msgNoSpec),
         mkWorld m' [] [CallLoadSpec cwd (inr NoSpec)]) /\
      exitCode (run this cwd m).1 = 1
  | (inr (Found d), m') =>
      (exists rest,
         journal (run this cwd m).2 =
           CallLoadSpec cwd (inr (Found d))
             :: CallResolveDescriptor d (resolveDescriptor d m').1 :: rest) /\
      resolveRequests (journal (run this cwd m).2) = [d]
  | (inl e, m') =>
      run this cwd m = (inl e, mkWorld m' [] [CallLoadSpec cwd (inl e)])
  end.
Proof.
  intros Hall Hspec.
  unfold run, execute, specs, thisSpec. rewrite Hall, Hspec. simpl.
  repeat progress unfold_run.
  repeat (case_match; simplify_eq/=); eauto.
Qed.

(** Properties of an event and its neighbours that survive more calls
    before and after lift from one iteration to the whole command. *)
Lemma Loop_local P requests m r w before e later :
  Extensible P ->
  (forall x m r w before e later,
      iteration this cwd x (fresh m) = (r, w) ->
      journal w = before ++ e :: later -> P before e later) ->
  Loop (iteration this cwd) requests m r w ->
  journal w = before ++ e :: later -> P before e later.
Proof.
  intros HP Hit Hloop. revert before later.
  induction Hloop as [m|x rest m e' w Hx|x rest m w1 r w2 Hx Hloop IH];
    intros before later Hj.
  - by destruct before.
  - eauto.
  - simpl in Hj. apply split_after in Hj as [(mid & Hj & ->)|(mid & -> & Hj)].
    + rewrite <- (app_nil_l before). apply HP. eauto.
    + rewrite <- (app_nil_r later). apply HP. eauto.
Qed.

Lemma run_local P m r w before e later :
  Extensible P ->
  (forall res later, P [] (CallGetDefaultDescriptors res) later) ->
  (forall x m r w before e later,
      iteration this cwd x (fresh m) = (r, w) ->
      journal w = before ++ e :: later -> P before e later) ->
  run this cwd m = (r, w) ->
  journal w = before ++ e :: later -> P before e later.
Proof.
  intros HP Hds Hit Hrun Hj. apply run_Invocation in Hrun.
  destruct Hrun as [raw ? ?|e' m0 ? ? ?|ds m0 r w ? ? ? Hloop|r w ? Hrun].
  - by destruct before.
  - simpl in Hj. locate. apply Hds.
  - simpl in Hj. destruct before as [|b before]; simplify_eq/=.
    + apply Hds.
    + match goal with
      | |- P (?b :: ?bs) _ _ => change (b :: bs) with ([b] ++ bs)
      end.
      rewrite <- (app_nil_r later). apply HP.
      eapply Loop_local; eauto.
  - eauto.
Qed.








Lemma packedFiles_app j1 j2 :
  packedFiles (j1 ++ j2) = packedFiles j1 ++ packedFiles j2.
Proof.
  induction j1 as [|[] j1 IH]; simpl; trivial. by rewrite IH.
Qed.

Lemma resolvedLocators_app j1 j2 :
  resolvedLocators (j1 ++ j2) = resolvedLocators j1 ++ resolvedLocators j2.
Proof.
  induction j1 as [|[? | ? ? | ? [?|[?|]] | ? ? | ? ? | ? ? ?] j1 IH];
    simpl; trivial. by rewrite IH.
Qed.

(** When every iteration that completes names its archive by [name], so
    does a whole run that completes. *)
Lemma Loop_packed (name : Locator -> string) requests m w :
  (forall x m w,
      x ∈ requests ->
      iteration this cwd x (fresh m) = (inr tt, w) ->
      packedFiles (journal w) = map name (resolvedLocators (journal w))) ->
  Loop (iteration this cwd) requests m (inr tt) w ->
  packedFiles (journal w) = map name (resolvedLocators (journal w)).
Proof.
  intros Hit Hloop. remember (inr tt) as r eqn:Hr.
  induction Hloop as [m|x rest m e' w Hx|x rest m w1 r w2 Hx Hloop IH];
    subst; simpl; trivial; [done|].
  rewrite packedFiles_app, resolvedLocators_app, map_app.
  f_equal.
  - apply (Hit x m); [left|done].
  - apply IH; trivial. intros y m' w' Hy. apply Hit. by right.
Qed.

Lemma run_packed (name : Locator -> string) m w :
  (forall x m w,
      (if all this then exists d, x = RequestDescriptor d else x = thisSpec this) ->
      iteration this cwd x (fresh m) = (inr tt, w) ->
      packedFiles (journal w) = map name (resolvedLocators (journal w))) ->
  run this cwd m = (inr tt, w) ->
  packedFiles (journal w) = map name (resolvedLocators (journal w)).
Proof.
  intros Hit Hrun. apply run_Invocation in Hrun.
  remember (inr tt) as r eqn:Hr.
  destruct Hrun as [raw ? ?|e' m0 ? ? ?|ds m0 r w Hall ? ? Hloop|r w Hall Hone];
    subst; try done; rewrite Hall in Hit.
  - simpl. eapply Loop_packed; [|exact Hloop].
    intros x m' w'' Hx. apply Hit.
    apply list_elem_of_In, in_map_iff in Hx as (d & <- & _). by exists d.
  - by apply (Hit (thisSpec this) m).
Qed.

Lemma versioned_is_not_versionless l l' : versionedName l <> versionlessName l'.
Proof.
  destruct l as [[] ref], l' as [[] ref'];
    unfold versionedName, versionlessName; simpl;
    cbv [String.append]; intros Heq; simplify_eq.
Qed.

(** C1 (amended).  When [--output] is set without a path and the command
    completes, one archive is written per resolved locator, in order, in
    the working directory; its name carries the reference exactly when the
    request is defined, that is when a descriptor was given on the command
    line or [--all] is set, and is the version-less name when the
    descriptor was read from the project.  The two names never
    coincide. *)
Theorem default_archive_name m w :
  output this = OutputBoolean true ->
  run this cwd m = (inr tt, w) ->
  packedFiles (journal w) =
    map (fun l =>
           path_join cwd
             (if all this || bool_decide (is_Some (spec this))
              then versionedName l
              else versionlessName l))
        (resolvedLocators (journal w)) /\
  (forall l l', versionedName l <> versionlessName l').
Proof.
  intros Hout Hrun. split; [|apply versioned_is_not_versionless].
  apply (run_packed _ m w); trivial.
  clear -Hout. intros x m w Hx Hit.
  assert (negb (isUndefined x) = all this || bool_decide (is_Some (spec this)))
    as <-.
  { destruct (all this); [by destruct Hx as [d ->]|].
    subst x. unfold thisSpec. by destruct (spec this). }
  unfold iteration, pack, fileName in Hit. rewrite Hout in Hit.
  run_iteration; done.
Qed.

(** C9 (amended).  When [--output] carries a non-empty path, every
    [tar.c] call of the command writes to exactly that path, and in a run
    that completes each resolved locator got its archive there; the
    computed default name is never used, wherever the descriptor came
    from. *)
Theorem explicit_output_path m r w path :
  output this = OutputString path ->
  path <> "" ->
  run this cwd m = (r, w) ->
  (forall before o entries a later,
      journal w = before ++ CallTar o entries a :: later -> file o = path) /\
  (r = inr tt ->
   packedFiles (journal w) = map (fun _ => path) (resolvedLocators (journal w))).
Proof.
  intros Hout Hpath Hrun.
  assert (truthy (output this) = true) as Htruthy.
  { rewrite Hout. simpl. by apply negb_true_iff, String.eqb_neq. }
  split.
  - intros before o entries a later Hj.
    refine (run_local
              (fun before e later =>
                 forall o entries a, e = CallTar o entries a -> file o = path)
              m r w before _ later _ _ _ Hrun Hj o entries a eq_refl).
    + intros a0 b0 e l0 b1 HP. exact HP.
    + done.
    + clear -Hout. intros x m r w before e later Hit Hj o entries a ->.
      unfold iteration, pack, fileName in Hit. rewrite Hout in Hit.
      run_iteration; locate; done.
  - intros ->. apply (run_packed _ m w); trivial.
    clear -Hout Htruthy. intros x m w _ Hit.
    unfold iteration, pack, fileName in Hit. rewrite Htruthy, Hout in Hit.
    run_iteration; done.
Qed.

(** A property of the result, the output and the journal that holds of
    each iteration and is kept when a run follows a completed one holds of
    the whole loop. *)
Lemma Loop_sum (P : Error + unit -> list string -> list Event -> Prop)
    requests m r w :
  P (inr tt) [] [] ->
  (forall r o1 j1 o2 j2,
      P (inr tt) o1 j1 -> P r o2 j2 -> P r (o1 ++ o2) (j1 ++ j2)) ->
  (forall x m r w,
      x ∈ requests ->
      iteration this cwd x (fresh m) = (r, w) -> P r (stdout w) (journal w)) ->
  Loop (iteration this cwd) requests m r w ->
  P r (stdout w) (journal w).
Proof.
  intros Hnil Happ Hit Hloop.
  induction Hloop as [m|x rest m e w Hx|x rest m w1 r w2 Hx Hloop IH].
  - exact Hnil.
  - apply (Hit x m); [left|done].
  - simpl. apply Happ.
    + apply (Hit x m); [left|done].
    + apply IH. intros y m' r' w' Hy. apply Hit. by right.
Qed.

Lemma run_sum (P : Error + unit -> list string -> list Event -> Prop) m r w :
  P (inl (UsageError msgAllWithSpec)) [] [] ->
  P (inr tt) [] [] ->
  (forall e, P (inl e) [] [CallGetDefaultDescriptors (inl e)]) ->
  (forall ds, P (inr tt) [] [CallGetDefaultDescriptors (inr ds)]) ->
  (forall r o1 j1 o2 j2,
      P (inr tt) o1 j1 -> P r o2 j2 -> P r (o1 ++ o2) (j1 ++ j2)) ->
  (forall x m r w,
      (if all this then exists d, x = RequestDescriptor d else x = thisSpec this) ->
      iteration this cwd x (fresh m) = (r, w) -> P r (stdout w) (journal w)) ->
  run this cwd m = (r, w) ->
  P r (stdout w) (journal w).
Proof.
  intros Hconflict Hnil Hfail Hds Happ Hit Hrun. apply run_Invocation in Hrun.
  destruct Hrun as [raw ? ?|e m0 ? ? ?|ds m0 r w Hall ? ? Hloop|r w Hall Hone];
    simpl; trivial; rewrite Hall in Hit.
  - change (P r ([] ++ stdout w)
              ([CallGetDefaultDescriptors (inr ds)] ++ journal w)).
    apply Happ; [apply Hds|].
    eapply Loop_sum; [exact Hnil|exact Happ| |exact Hloop].
    intros x m' r' w' Hx. apply Hit.
    apply list_elem_of_In, in_map_iff in Hx as (d & <- & _). by exists d.
  - by apply (Hit (thisSpec this) m).
Qed.

Lemma archivedFiles_app j1 j2 :
  archivedFiles (j1 ++ j2) = archivedFiles j1 ++ archivedFiles j2.
Proof.
  induction j1 as [|[? | ? ? | ? ? | ? ? | ? ? | ? ? [?|?]] j1 IH];
    simpl; trivial. by rewrite IH.
Qed.

Lemma ensuredLocators_app j1 j2 :
  ensuredLocators (j1 ++ j2) = ensuredLocators j1 ++ ensuredLocators j2.
Proof.
  induction j1 as [|[? | ? ? | ? ? | ? [?|?] | ? ? | ? ? ?] j1 IH];
    simpl; trivial. by rewrite IH.
Qed.

Lemma activatedLocators_app j1 j2 :
  activatedLocators (j1 ++ j2) = activatedLocators j1 ++ activatedLocators j2.
Proof.
  induction j1 as [|[? | ? ? | ? ? | ? ? | ? [?|?] | ? ? ?] j1 IH];
    simpl; trivial. by rewrite IH.
Qed.

Lemma iteration_archive request m r w before o entries a later :
  InstallLayout ->
  iteration this cwd request (fresh m) = (r, w) ->
  journal w = before ++ CallTar o entries a :: later ->
  gzip o = true /\
  exists l i,
    CallEnsurePackageManager l (inr i) ∈ before /\
    entries = [path_relative (tar_cwd o) (location i)] /\
    location i = path_join (tar_cwd o) (installPath l).
Proof.
  intros Hlayout Hit Hj.
  run_iteration; locate; (split; [done|]);
    match goal with
    | E : ensurePackageManager ?l ?m = (inr ?i, _) |- _ =>
        exists l, i; pose proof (Hlayout _ _ _ _ E) as Hloc
    end;
    (split; [set_solver|]); by split.
Qed.

(** C6.  Every [tar.c] call of the command is gzipped and comes after the
    completed install of some locator; its single entry is the location of
    that install taken relative to the [cwd] option.  Where the engine lays
    installs out as [<install folder>/<name>/<reference>], the [cwd] option
    is the folder that install sits under; and if [path.relative] undoes
    [path.join] for that folder and that [<name>/<reference>], the entry is
    [<name>/<reference>]. *)
Theorem archive_paths_are_relative m r w before o entries a later :
  InstallLayout ->
  run this cwd m = (r, w) ->
  journal w = before ++ CallTar o entries a :: later ->
  gzip o = true /\
  exists l i,
    CallEnsurePackageManager l (inr i) ∈ before /\
    entries = [path_relative (tar_cwd o) (location i)] /\
    location i = path_join (tar_cwd o) (installPath l) /\
    (RelativeUndoesJoinAt (tar_cwd o) (installPath l) ->
     entries = [installPath l]).
Proof.
  intros Hlayout Hrun Hj.
  assert (gzip o = true /\
          exists l i,
            CallEnsurePackageManager l (inr i) ∈ before /\
            entries = [path_relative (tar_cwd o) (location i)] /\
            location i = path_join (tar_cwd o) (installPath l))
    as (Hgzip & l & i & Hin & Hentries & Hloc).
  { refine (run_local
              (fun before e later =>
                 forall o entries a, e = CallTar o entries a ->
                   gzip o = true /\
                   exists l i,
                     CallEnsurePackageManager l (inr i) ∈ before /\
                     entries = [path_relative (tar_cwd o) (location i)] /\
                     location i = path_join (tar_cwd o) (installPath l))
              m r w before _ later _ _ _ Hrun Hj o entries a eq_refl).
    - intros a0 b0 e l0 b1 HP o1 e1 a1 He.
      destruct (HP o1 e1 a1 He) as (? & l1 & i1 & ? & ? & ?).
      split; [done|]. exists l1, i1. repeat split; trivial.
      apply elem_of_app. by right.
    - done.
    - intros x m' r' w' before' e later' Hit Hj' o' entries' a' ->.
      eapply iteration_archive; eauto. }
  split; [done|]. exists l, i. repeat split; trivial.
  intros Hrel. unfold RelativeUndoesJoinAt in Hrel. by rewrite Hentries, Hloc, Hrel.
Qed.

Ltac keep_view :=
  repeat match goal with
  | Hv : EngineLeavesAlone _ |- _ => destruct Hv as (? & ? & ? & ?)
  | Hop : forall m, ?view (getDefaultDescriptors m).2 = _,
    E : getDefaultDescriptors ?m = _ |- _ =>
      let X := fresh in pose proof (Hop m) as X; rewrite E in X; clear E
  | Hop : forall d m, ?view (resolveDescriptor d m).2 = _,
    E : resolveDescriptor ?d ?m = _ |- _ =>
      let X := fresh in pose proof (Hop d m) as X; rewrite E in X; clear E
  | Hop : forall l m, ?view (ensurePackageManager l m).2 = _,
    E : ensurePackageManager ?l ?m = _ |- _ =>
      let X := fresh in pose proof (Hop l m) as X; rewrite E in X; clear E
  | Hop : forall dir m, ?view (loadSpec dir m).2 = _,
    E : loadSpec ?dir ?m = _ |- _ =>
      let X := fresh in pose proof (Hop dir m) as X; rewrite E in X; clear E
  | Htar : forall o entries a, CallTar o entries a ∈ _ -> ArchiveLeavesAlone ?view o entries,
    E : tar_c ?o ?entries ?m = (?a, _) |- _ =>
      let X := fresh in
      assert (ArchiveLeavesAlone view o entries) as X by (apply (Htar o entries a); set_solver);
      specialize (X m); rewrite E in X; clear E
  end; simpl in *.

Lemma iteration_keeps_view {V} (view : St -> V) request m r w :
  EngineLeavesAlone view ->
  activate this = false ->
  iteration this cwd request (fresh m) = (r, w) ->
  (forall o entries a,
      CallTar o entries a ∈ journal w -> ArchiveLeavesAlone view o entries) ->
  view (machine w) = view m.
Proof.
  intros Hv Hflag Hrun Htar. unfold iteration, activation in Hrun.
  rewrite Hflag in Hrun.
  run_iteration; keep_view; congruence.
Qed.

Lemma Loop_keeps_view {V} (view : St -> V) requests m r w :
  EngineLeavesAlone view ->
  activate this = false ->
  Loop (iteration this cwd) requests m r w ->
  (forall o entries a,
      CallTar o entries a ∈ journal w -> ArchiveLeavesAlone view o entries) ->
  view (machine w) = view m.
Proof.
  intros Hv Hflag.
  induction 1 as [m|x rest m e' w Hx|x rest m w1 r w2 Hx Hloop IH]; intros Htar.
  - done.
  - eapply iteration_keeps_view; eauto.
  - simpl in *. rewrite IH.
    + eapply iteration_keeps_view; eauto.
      intros o entries a Hin. apply (Htar o entries a), elem_of_app. by left.
    + intros o entries a Hin. apply (Htar o entries a), elem_of_app. by right.
Qed.

Lemma iteration_resolves_once request m w :
  iteration this cwd request (fresh m) = (inr tt, w) ->
  length (resolvedLocators (journal w)) = 1.
Proof. intros Hit. run_iteration; done. Qed.

Lemma Loop_resolves_each requests m w :
  Loop (iteration this cwd) requests m (inr tt) w ->
  length (resolvedLocators (journal w)) = length requests.
Proof.
  intros Hloop. remember (inr tt) as r eqn:Hr.
  induction Hloop as [m|x rest m e' w Hx|x rest m w1 r w2 Hx Hloop IH];
    subst; simpl; trivial; [done|].
  rewrite resolvedLocators_app, length_app, IH by done.
  by rewrite (iteration_resolves_once _ _ _ Hx).
Qed.

(** C7.  [activatePackageManager] is called exactly when [--activate] is
    set.  With the flag, every install that completed is followed at once
    by the activation of the same locator.  Any activation in the journal
    means the flag is set and comes right after the successful resolution
    of that locator and its completed install.  In a run that completes,
    one locator is resolved per request, each of them is installed, and the
    locators activated are all of them with the flag and none without.
    Without the flag, a part of the machine that the engine and [loadSpec]
    never write and that none of the archives written by this run
    overwrites (the persisted activation state, unless [--output] names its
    file) is the same after the command as before. *)
Theorem activation_follows_flag m r w :
  run this cwd m = (r, w) ->
  (activate this = true ->
   forall before l i later,
     journal w = before ++ CallEnsurePackageManager l (inr i) :: later ->
     exists a later', later = CallActivatePackageManager l a :: later') /\
  (forall before l a later,
     journal w = before ++ CallActivatePackageManager l a :: later ->
     activate this = true /\
     exists before' d i,
       before = before' ++ [CallResolveDescriptor d (inr (Some l));
                            CallEnsurePackageManager l (inr i)]) /\
  (r = inr tt ->
   (forall requests w0,
       specs this (fresh m) = (inr requests, w0) ->
       length (resolvedLocators (journal w)) = length requests) /\
   ensuredLocators (journal w) = resolvedLocators (journal w) /\
   activatedLocators (journal w)
     = (if activate this then resolvedLocators (journal w) else [])) /\
  (activate this = false ->
   forall (V : Type) (view : St -> V),
     EngineLeavesAlone view ->
     (forall o entries a,
         CallTar o entries a ∈ journal w -> ArchiveLeavesAlone view o entries) ->
     view (machine w) = view m).
Proof.
  intros Hrun. split; [|split; [|split]].
  - intros Hflag before l i later Hj.
    refine (run_local
             (fun before e later =>
                forall l i, e = CallEnsurePackageManager l (inr i) ->
                  exists a later', later = CallActivatePackageManager l a :: later')
             m r w before _ later _ _ _ Hrun Hj l i eq_refl).
    + intros a0 b0 e l0 b1 HP l1 i1 He.
      destruct (HP l1 i1 He) as (a & later' & ->). simpl. eauto.
    + done.
    + clear - Hflag. intros x m r w before e later Hit Hj l i ->.
      unfold iteration, activation in Hit. rewrite Hflag in Hit.
      run_iteration; locate; eauto.
  - intros before l a later Hj.
    refine (run_local
             (fun before e later =>
                forall l a, e = CallActivatePackageManager l a ->
                  activate this = true /\
                  exists before' d i,
                    before = before' ++ [CallResolveDescriptor d (inr (Some l));
                                         CallEnsurePackageManager l (inr i)])
             m r w before _ later _ _ _ Hrun Hj l a eq_refl).
    + intros a0 b0 e l0 b1 HP l1 a1 He.
      destruct (HP l1 a1 He) as (? & before' & d & i & ->).
      split; [done|]. exists (a0 ++ before'), d, i. by rewrite app_assoc.
    + done.
    + clear. intros x m r w before e later Hit Hj l a ->.
      run_iteration; locate; split; trivial.
      all: first [ by eexists [], _, _ | by eexists [_], _, _ ].
  - intros ->. split.
    + intros requests w0 Hspecs. apply run_Invocation in Hrun.
      remember (inr tt) as r eqn:Hr. unfold specs in Hspecs.
      destruct Hrun as [raw ? ?|e' m0 ? ? ?|ds m0 r w Hall ? Hds Hloop|r w Hall Hit];
        subst; try done; rewrite Hall in Hspecs.
      * unfold mbind, M_bind, bind, await, ret, fresh in Hspecs. simpl in Hspecs.
        rewrite Hds in Hspecs. simplify_eq/=.
        by apply (Loop_resolves_each _ m0).
      * unfold ret in Hspecs. simplify_eq/=.
        by apply (iteration_resolves_once (thisSpec this) m).
    + refine (run_sum
                (fun r _ j =>
                   r = inr tt ->
                   ensuredLocators j = resolvedLocators j /\
                   activatedLocators j
                     = (if activate this then resolvedLocators j else []))
                m (inr tt) w _ _ _ _ _ _ Hrun eq_refl); try done.
      * by destruct (activate this).
      * by destruct (activate this).
      * intros r' o1 j1 o2 j2 H1 H2 ->.
        destruct (H1 eq_refl) as (He1 & Ha1), (H2 eq_refl) as (He2 & Ha2).
        rewrite ensuredLocators_app, activatedLocators_app, resolvedLocators_app.
        rewrite He1, He2, Ha1, Ha2. by destruct (activate this).
      * clear. intros x m r w _ Hit ->.
        unfold iteration, activation in Hit.
        destruct (activate this); run_iteration; done.
  - intros Hflag V view Hv Htar.
    apply run_Invocation in Hrun.
    destruct Hrun as [raw ? ?|e' m0 ? ? ?|ds m0 r w ? ? ? Hloop|r w ? Hrun].
    + done.
    + simpl. keep_view. congruence.
    + simpl in *. rewrite (Loop_keeps_view view _ _ _ _ Hv Hflag Hloop).
      * keep_view. congruence.
      * intros o entries a Hin. apply (Htar o entries a). by right.
    + eapply iteration_keeps_view; eauto.
Qed.
End Claims.

Section SingleRequest.
Context {St : Type} `{Platform St}.
Variable this : PrepareCommand.
Variable cwd : string.

(** What a completed run for one descriptor argument went through. *)
Lemma run_one_completed m w raw :
  all this = false ->
  spec this = Some raw ->
  run this cwd m = (inr tt, w) ->
  exists d l m1 i m2 m3,
    parseSpec raw "CLI arguments" = inr d /\
    resolveDescriptor d m = (inr (Some l), m1) /\
    ensurePackageManager l m1 = (inr i, m2) /\
    (if activate this
     then activatePackageManager l m2 = (inr tt, m3)
     else m3 = m2) /\
    (if truthy (output this)
     then tar_c (mkTarOptions true (getInstallFolder m1)
                              (fileName this cwd (RequestString raw) l))
                [path_relative (getInstallFolder m1) (location i)] m3
          = (inr tt, machine w)
     else machine w = m3).
Proof.
  intros Hall Hspec Hrun.
  unfold run, execute, specs, thisSpec in Hrun. rewrite Hall, Hspec in Hrun.
  simpl in Hrun. unfold iteration, activation, pack in Hrun.
  destruct (activate this), (truthy (output this));
    run_iteration;
    repeat match goal with u : unit |- _ => destruct u end;
    by eexists _, _, _, _, _, _.
Qed.
End SingleRequest.

(** ** Facts about the reference machine *)
Module ReferenceFacts.
Import Reference.

Lemma stripPrefix_app p s : stripPrefix p (p +:+ s) = Some s.
Proof.
  induction p as [|a p IH]; [done|].
  change (String a p +:+ s) with (String a (p +:+ s)). simpl.
  by rewrite Ascii.eqb_refl.
Qed.

Lemma relative_undoes_join base rel :
  path_relative base (path_join base rel) = rel.
Proof.
  unfold path_relative, path_join.
  by rewrite <- string_app_assoc, stripPrefix_app.
Qed.

Lemma splitAtChar_installPath n v :
  splitAtChar "/" (installPath (mkLocator n v)) = Some (pmName n, v).
Proof. by destruct n. Qed.

Lemma resolveDescriptor_exact d m :
  isExactVersion (range d) = true ->
  resolveDescriptor d m = (inr (Some (mkLocator (dname d) (range d))), m).
Proof. intros Hv. unfold resolveDescriptor. by rewrite Hv. Qed.

(** A completed [ensurePackageManager] leaves a complete install behind,
    under the install folder, and touches nothing but installs and
    traffic. *)
Lemma ensurePackageManager_completed l m i m' :
  ensurePackageManager l m = (inr i, m') ->
  i = mkInstallSpec (path_join (cacheRoot m) (installPath l)) /\
  (exists t, installs m' !! installPath l = Some (mkInstallRecord t true)) /\
  cacheRoot m' = cacheRoot m /\
  activationState m' = activationState m /\
  archives m' = archives m /\
  surroundings m' = surroundings m.
Proof.
  unfold ensurePackageManager, getInstallFolder. intros Hrun.
  repeat (case_match; simplify_eq/=); repeat split; trivial.
  all: try (eexists; apply lookup_insert_eq).
  all: match goal with
       | E : installs _ !! _ = Some ?r |- _ => destruct r as [t []]; by eauto
       end.
Qed.

(** Once installed, [ensurePackageManager] answers from the cache. *)
Lemma ensurePackageManager_cached l m t :
  installs m !! installPath l = Some (mkInstallRecord t true) ->
  ensurePackageManager l m =
    (inr (mkInstallSpec (path_join (cacheRoot m) (installPath l))), m).
Proof. intros Hin. unfold ensurePackageManager. by rewrite Hin. Qed.

Lemma tar_c_completed o entry m m' :
  tar_c o [entry] m = (inr tt, m') ->
  exists r,
    installs m !! entry = Some r /\
    m' = withArchives (<[file o := [(entry, tree r)]]> (archives m)) m.
Proof.
  unfold tar_c. intros Hrun.
  destruct (String.eqb _ _); [|done]. simpl in Hrun.
  destruct (installs m !! entry) as [r|]; simpl in Hrun; [|done].
  simplify_eq. by exists r.
Qed.

Lemma loadSpec_surroundings dir m m' :
  surroundings m = surroundings m' -> (loadSpec dir m).1 = (loadSpec dir m').1.
Proof.
  intros Heq. unfold loadSpec. rewrite Heq. by repeat case_match.
Qed.

Lemma defaultDescriptor_activated n v m :
  activationState m !! pmName n = Some (mkLocator n v) ->
  defaultDescriptor n m = mkDescriptor n v.
Proof. intros Hact. unfold defaultDescriptor. by rewrite Hact. Qed.

(** Dispatching a manager whose effective descriptor is an exact version
    already in the cache spawns that install, asks the network nothing and
    leaves the machine as it was. *)
Lemma dispatch_cached n v args explicit dir m t :
  match explicit with
  | Some d => d = mkDescriptor n v
  | None =>
      match (loadSpec dir m).1 with
      | inr (Found d) => d = mkDescriptor n v
      | _ => defaultDescriptor n m = mkDescriptor n v
      end
  end ->
  isExactVersion v = true ->
  installs m !! installPath (mkLocator n v) = Some (mkInstallRecord t true) ->
  dispatch n args explicit dir m =
    (match entryPoint (surroundings m) t args with
     | Some answer => inr answer
     | None => inl (Failure "Failed to execute")
     end, m).
Proof.
  intros Heff Hv Hin. unfold dispatch.
  match goal with
  | |- context [negb (bool_decide (dname ?e = n))] =>
      assert (e = mkDescriptor n v) as ->
  end.
  { destruct explicit as [d|]; [done|].
    destruct (loadSpec dir m).1 as [?|[| |?]]; done. }
  simpl. rewrite bool_decide_true by done. simpl.
  rewrite resolveDescriptor_exact by done. simpl.
  rewrite (ensurePackageManager_cached _ _ t) by done.
  rewrite Hin. simpl. by destruct (entryPoint _ _ _).
Qed.

(** What a completed [prepare <name>@<version>] leaves on the machine. *)
Lemma prepared this cwd m raw n v w :
  all this = false ->
  spec this = Some raw ->
  parseSpec raw "CLI arguments" = inr (mkDescriptor n v) ->
  isExactVersion v = true ->
  run this cwd m = (inr tt, w) ->
  let l := mkLocator n v in
  exists t,
    installs (machine w) !! installPath l = Some (mkInstallRecord t true) /\
    (activate this = true -> activationState (machine w) !! pmName n = Some l) /\
    (truthy (output this) = true ->
     archives (machine w) !! fileName this cwd (RequestString raw) l
       = Some [(installPath l, t)]).
Proof.
  intros Hall Hspec Hparse Hv Hrun l.
  destruct (run_one_completed this cwd m w raw Hall Hspec Hrun)
    as (d & l' & m1 & i & m2 & m3 & Hd & Hres & Hens & Hact & Hpack).
  simpl in Hd, Hres, Hens, Hact, Hpack.
  rewrite Hparse in Hd. injection Hd as <-.
  rewrite resolveDescriptor_exact in Hres by done. simpl in Hres.
  injection Hres as <- <-. fold l in Hens, Hact, Hpack.
  destruct (ensurePackageManager_completed _ _ _ _ Hens)
    as (-> & [t Ht] & Hroot & Hstate & _ & _).
  exists t.
  assert (installs m3 !! installPath l = Some (mkInstallRecord t true) /\
          (activate this = true -> activationState m3 !! pmName n = Some l))
    as [Hin3 Hact3].
  { destruct (activate this).
    - unfold activatePackageManager in Hact. injection Hact as <-. simpl.
      split; [done|]. intros _. apply lookup_insert_eq.
    - subst m3. by split. }
  destruct (truthy (output this)).
  - unfold getInstallFolder in Hpack. simpl in Hpack.
    rewrite relative_undoes_join in Hpack.
    apply tar_c_completed in Hpack as (r & Hr & ->). simpl.
    rewrite Hin3 in Hr. injection Hr as <-. simpl.
    repeat split; trivial. intros _. apply lookup_insert_eq.
  - subst m3. by repeat split.
Qed.

(** C8.  After [prepare <name>@<version> --activate] has completed, the
    activation state maps the name to that locator.  On any later machine
    with the same cache root content, [getDefaultDescriptors] lists
    [<name>@<version>], which resolves to the activated locator, and,
    where the working directory has no project or no [packageManager]
    field, dispatching the manager spawns the install of that very
    version. *)
Theorem activation_persists this cwd m raw n v w later dir :
  all this = false ->
  spec this = Some raw ->
  activate this = true ->
  parseSpec raw "CLI arguments" = inr (mkDescriptor n v) ->
  isExactVersion v = true ->
  run this cwd m = (inr tt, w) ->
  installs later = installs (machine w) ->
  activationState later = activationState (machine w) ->
  (loadSpec dir later).1 = inr NoProject \/ (loadSpec dir later).1 = inr NoSpec ->
  activationState later !! pmName n = Some (mkLocator n v) /\
  (exists ds,
      getDefaultDescriptors later = (inr ds, later) /\ mkDescriptor n v ∈ ds) /\
  resolveDescriptor (mkDescriptor n v) later
    = (inr (Some (mkLocator n v)), later) /\
  (exists t,
      installs later !! installPath (mkLocator n v)
        = Some (mkInstallRecord t true) /\
      forall args,
        dispatch n args None dir later =
          (match entryPoint (surroundings later) t args with
           | Some answer => inr answer
           | None => inl (Failure "Failed to execute")
           end, later)).
Proof.
  intros Hall Hspec Hflag Hparse Hv Hrun Hsame Hstate Hlookup.
  destruct (prepared this cwd m raw n v w Hall Hspec Hparse Hv Hrun)
    as (t & Hin & Hact & _).
  specialize (Hact Hflag). rewrite <- Hstate in Hact. rewrite <- Hsame in Hin.
  pose proof (defaultDescriptor_activated n v later Hact) as Hdefault.
  split; [done|]. split; [|split].
  - eexists. split; [done|]. rewrite <- Hdefault.
    apply list_elem_of_In.
    apply (in_map (fun k => defaultDescriptor k later) supportedNames n).
    destruct n; simpl; auto.
  - by apply resolveDescriptor_exact.
  - exists t. split; [done|]. intros args.
    apply (dispatch_cached n v); trivial.
    by destruct Hlookup as [-> | ->].
Qed.

Lemma hydrate_single archive m n v t :
  archives m !! archive = Some [(installPath (mkLocator n v), t)] ->
  hydrate archive m =
    (inr ("Hydrated " +:+ pmName n +:+ "@" +:+ v +:+ newline),
     withInstalls
       (<[installPath (mkLocator n v) := mkInstallRecord t true]> (installs m)) m).
Proof.
  intros Har. unfold hydrate. rewrite Har.
  by rewrite splitAtChar_installPath.
Qed.

(** C2.  Let [prepare <name>@<version> -o] complete.  On a machine with
    an empty cache root and the network disabled that holds the archive
    written, [hydrate] of that archive succeeds, reports the name and
    version, leaves in the cache exactly the install record that was
    exported, and sends nothing over the network.  Dispatching the manager
    from a project that declares [<name>@<version>] then spawns that
    install without any traffic; so if the exported release prints its
    version on [--version] and exits with 0, so does the dispatch. *)
Theorem hydrate_round_trip this cwd m raw n v w offline dir :
  all this = false ->
  spec this = Some raw ->
  output this = OutputBoolean true ->
  parseSpec raw "CLI arguments" = inr (mkDescriptor n v) ->
  isExactVersion v = true ->
  run this cwd m = (inr tt, w) ->
  installs offline = ∅ ->
  networkEnabled offline = false ->
  archives offline = archives (machine w) ->
  (loadSpec dir offline).1 = inr (Found (mkDescriptor n v)) ->
  let l := mkLocator n v in
  let archive := Reference.path_join cwd (versionedName l) in
  let hydrated := (hydrate archive offline).2 in
  exists record,
    installs (machine w) !! installPath l = Some record /\
    complete record = true /\
    (hydrate archive offline).1
      = inr ("Hydrated " +:+ pmName n +:+ "@" +:+ v +:+ newline) /\
    installs hydrated = {[installPath l := record]} /\
    traffic hydrated = traffic offline /\
    (forall args,
        dispatch n args None dir hydrated =
          (match entryPoint (surroundings offline) (tree record) args with
           | Some answer => inr answer
           | None => inl (Failure "Failed to execute")
           end, hydrated)) /\
    (entryPoint (surroundings offline) (tree record) ["--version"]
       = Some (v +:+ newline, 0) ->
     (dispatch n ["--version"] None dir hydrated).1 = inr (v +:+ newline, 0)).
Proof.
  intros Hall Hspec Hout Hparse Hv Hrun Hempty Hnet Har Hlookup l archive hydrated.
  destruct (prepared this cwd m raw n v w Hall Hspec Hparse Hv Hrun)
    as (t & Hin & _ & Hpacked).
  rewrite Hout in Hpacked. specialize (Hpacked eq_refl).
  unfold fileName in Hpacked. rewrite Hout in Hpacked. simpl in Hpacked.
  fold l archive in Hpacked. rewrite <- Har in Hpacked.
  pose proof (hydrate_single archive offline n v t Hpacked) as Hhyd.
  fold l in Hhyd. rewrite Hempty in Hhyd.
  assert (forall args,
             dispatch n args None dir hydrated =
               (match entryPoint (surroundings offline) t args with
                | Some answer => inr answer
                | None => inl (Failure "Failed to execute")
                end, hydrated)) as Hdispatch.
  { intros args. unfold hydrated. rewrite Hhyd. simpl.
    rewrite (dispatch_cached n v args None dir _ t); trivial.
    - rewrite (loadSpec_surroundings dir _ offline) by done. by rewrite Hlookup.
    - simpl. apply lookup_insert_eq. }
  exists (mkInstallRecord t true). unfold hydrated. rewrite Hhyd. simpl.
  repeat split; trivial.
  - unfold hydrated in Hdispatch. by rewrite Hhyd in Hdispatch.
  - intros Hprints. specialize (Hdispatch ["--version"]).
    unfold hydrated in Hdispatch. rewrite Hhyd in Hdispatch. simpl in Hdispatch.
    by rewrite Hdispatch, Hprints.
Qed.
End ReferenceFacts.

(** ** The claims at concrete invocations *)
Module Witnesses.
Import Reference ReferenceFacts Scenarios.

Lemma all_with_descriptor_is_refused_witness :
  all conflicting = true /\
  spec conflicting = Some "yarn@2.2.2" /\
  run conflicting "/proj" emptyMachine
    = (inl (UsageError msgAllWithSpec), fresh emptyMachine) /\
  exitCode (run conflicting "/proj" emptyMachine).1 = 1.
Proof.
  split; [reflexivity|]. split; [reflexivity|].
  pose proof (all_with_descriptor_is_refused conflicting "/proj" emptyMachine
                "yarn@2.2.2" eq_refl eq_refl) as (Hrun & Hexit & _).
  by split.
Defined.

Lemma unresolved_descriptor_aborts_witness :
  exists r w,
    run unsatisfiable "/proj" emptyMachine = (r, w) /\
    journal w = [] ++ CallResolveDescriptor (mkDescriptor Yarn "^2") (inr None) :: [] /\
    r = inl (UsageError "Failed to successfully resolve '^2' to a valid yarn release") /\
    exitCode r = 1.
Proof.
  set (rw := run unsatisfiable "/proj" emptyMachine).
  assert (run unsatisfiable "/proj" emptyMachine = (rw.1, rw.2)) as Hrun
    by apply surjective_pairing.
  assert (journal rw.2
            = [] ++ CallResolveDescriptor (mkDescriptor Yarn "^2") (inr None) :: [])
    as Hj by (vm_compute; reflexivity).
  destruct (unresolved_descriptor_aborts _ _ _ _ _ _ _ _ Hrun Hj)
    as (_ & Hr & Hexit & _).
  by exists rw.1, rw.2.
Defined.

Lemma manifest_lookup_decides_witness :
  all bare = false /\
  spec bare = None /\
  (run bare "/proj" emptyMachine
     = (inl (UsageError msgNoProject),
        mkWorld emptyMachine [] [CallLoadSpec "/proj" (inr NoProject)]) /\
   exitCode (run bare "/proj" emptyMachine).1 = 1) /\
  (run bare "/bare" emptyMachine
     = (inl (UsageError msgNoSpec),
        mkWorld emptyMachine [] [CallLoadSpec "/bare" (inr NoSpec)]) /\
   exitCode (run bare "/bare" emptyMachine).1 = 1) /\
  resolveRequests (journal (run bare "/app" emptyMachine).2)
    = [mkDescriptor Yarn "2.2.2"].
Proof.
  split; [reflexivity|]. split; [reflexivity|]. split; [|split].
  - exact (manifest_lookup_decides bare "/proj" emptyMachine eq_refl eq_refl).
  - exact (manifest_lookup_decides bare "/bare" emptyMachine eq_refl eq_refl).
  - exact (proj2 (manifest_lookup_decides bare "/app" emptyMachine eq_refl eq_refl)).
Defined.

Lemma reference_engine_leaves_alone :
  EngineLeavesAlone (St:=Machine) activationState.
Proof.
  repeat split; simpl.
  - intros d m. unfold resolveDescriptor. by repeat (case_match; simpl).
  - intros l m. unfold ensurePackageManager. by repeat (case_match; simpl).
  - intros dir m. unfold loadSpec. by repeat (case_match; simpl).
Qed.

Lemma reference_archive_leaves_alone o entries :
  ArchiveLeavesAlone (St:=Machine) activationState o entries.
Proof. intros m. simpl. unfold tar_c. by repeat (case_match; simpl). Qed.

Lemma activation_follows_flag_witness :
  (exists w,
      run activating "/proj" emptyMachine = (inr tt, w) /\
      activate activating = true /\
      journal w =
        [CallResolveDescriptor (mkDescriptor Yarn "1.0.0")
           (inr (Some (mkLocator Yarn "1.0.0")));
         CallEnsurePackageManager (mkLocator Yarn "1.0.0")
           (inr (mkInstallSpec "/home/.corepack/yarn/1.0.0"));
         CallActivatePackageManager (mkLocator Yarn "1.0.0") (inr tt)] /\
      (exists a later',
          [CallActivatePackageManager (mkLocator Yarn "1.0.0") (inr tt)]
            = CallActivatePackageManager (mkLocator Yarn "1.0.0") a :: later') /\
      length (resolvedLocators (journal w)) = 1 /\
      activatedLocators (journal w) = resolvedLocators (journal w)) /\
  (exists w o entries a,
      run packing "/proj" emptyMachine = (inr tt, w) /\
      activate packing = false /\
      CallTar o entries a ∈ journal w /\
      activationState (machine w) = activationState emptyMachine).
Proof.
  split.
  - set (rw := run activating "/proj" emptyMachine).
    assert (run activating "/proj" emptyMachine = (inr tt, rw.2)) as Hrun
      by (change (rw = (inr tt, rw.2)); apply (surjective_pairing rw)).
    assert (journal rw.2 =
              [CallResolveDescriptor (mkDescriptor Yarn "1.0.0")
                 (inr (Some (mkLocator Yarn "1.0.0")))]
              ++ CallEnsurePackageManager (mkLocator Yarn "1.0.0")
                   (inr (mkInstallSpec "/home/.corepack/yarn/1.0.0"))
              :: [CallActivatePackageManager (mkLocator Yarn "1.0.0") (inr tt)])
      as Hj by (vm_compute; reflexivity).
    destruct (activation_follows_flag activating "/proj" emptyMachine
                (inr tt) rw.2 Hrun) as (Hnext & _ & Hdone & _).
    destruct (Hdone eq_refl) as (Hcount & _ & Hactivated).
    exists rw.2. split; [exact Hrun|]. split; [reflexivity|]. split; [exact Hj|].
    split; [exact (Hnext eq_refl _ _ _ _ Hj)|].
    split; [exact (Hcount [thisSpec activating] (fresh emptyMachine) eq_refl)|].
    exact Hactivated.
  - set (rw := run packing "/proj" emptyMachine).
    assert (run packing "/proj" emptyMachine = (inr tt, rw.2)) as Hrun
      by (change (rw = (inr tt, rw.2)); apply (surjective_pairing rw)).
    assert (exists o entries a, CallTar o entries a ∈ journal rw.2)
      as (o & entries & a & Hin).
    { eexists _, _, _. vm_compute. do 2 right. left. }
    destruct (activation_follows_flag packing "/proj" emptyMachine
                (inr tt) rw.2 Hrun) as (_ & _ & _ & Hframe).
    exists rw.2, o, entries, a.
    split; [exact Hrun|]. split; [reflexivity|]. split; [exact Hin|].
    exact (Hframe eq_refl _ activationState reference_engine_leaves_alone
             (fun o entries a _ => reference_archive_leaves_alone o entries)).
Defined.


Lemma default_archive_name_witness :
  (exists w,
      output packing = OutputBoolean true /\
      run packing "/proj" emptyMachine = (inr tt, w) /\
      packedFiles (journal w) = ["/proj/corepack-yarn-2.2.2.tgz"]) /\
  (exists w,
      output packingProject = OutputBoolean true /\
      run packingProject "/app" emptyMachine = (inr tt, w) /\
      packedFiles (journal w) = ["/app/corepack-yarn.tgz"]).
Proof.
  split.
  - set (rw := run packing "/proj" emptyMachine).
    assert (run packing "/proj" emptyMachine = (inr tt, rw.2)) as Hrun
      by (change (rw = (inr tt, rw.2)); apply (surjective_pairing rw)).
    exists rw.2. split; [reflexivity|]. split; [exact Hrun|].
    rewrite (proj1 (default_archive_name packing "/proj" emptyMachine rw.2
                      eq_refl Hrun)).
    vm_compute. reflexivity.
  - set (rw := run packingProject "/app" emptyMachine).
    assert (run packingProject "/app" emptyMachine = (inr tt, rw.2)) as Hrun
      by (change (rw = (inr tt, rw.2)); apply (surjective_pairing rw)).
    exists rw.2. split; [reflexivity|]. split; [exact Hrun|].
    rewrite (proj1 (default_archive_name packingProject "/app" emptyMachine rw.2
                      eq_refl Hrun)).
    vm_compute. reflexivity.
Defined.

(** C1 as stated fails.  [prepare --all -o] names no descriptor, the
    caller asks for whatever is currently effective; the command completes
    and every archive it writes carries the resolved version.  So the
    rule "versioned if and only if a descriptor was given on the command
    line" does not describe the command. *)
Lemma all_archives_carry_the_version :
  spec packingAll = None /\
  (run packingAll "/proj" emptyMachine).1 = inr tt /\
  packedFiles (journal (run packingAll "/proj" emptyMachine).2)
    = ["/proj/corepack-npm-6.14.2.tgz";
       "/proj/corepack-pnpm-5.4.0.tgz";
       "/proj/corepack-yarn-1.22.4.tgz"] /\
  ~ (forall (this : PrepareCommand) (cwd : string) (m : Machine) w,
        output this = OutputBoolean true ->
        run this cwd m = (inr tt, w) ->
        packedFiles (journal w) =
          map (fun l =>
                 path_join cwd
                   (if bool_decide (is_Some (spec this))
                    then versionedName l
                    else versionlessName l))
              (resolvedLocators (journal w))).
Proof.
  split; [reflexivity|]. split; [vm_compute; reflexivity|].
  split; [vm_compute; reflexivity|].
  intros Hclaim.
  specialize (Hclaim packingAll "/proj" emptyMachine
                (run packingAll "/proj" emptyMachine).2 eq_refl).
  assert (run packingAll "/proj" emptyMachine
            = (inr tt, (run packingAll "/proj" emptyMachine).2)) as Hrun
    by (vm_compute; reflexivity).
  specialize (Hclaim Hrun). vm_compute in Hclaim. discriminate Hclaim.
Qed.

Lemma explicit_output_path_witness :
  exists w,
    output namedArchive = OutputString "yarn.tgz" /\
    "yarn.tgz" <> "" /\
    run namedArchive "/proj" emptyMachine = (inr tt, w) /\
    packedFiles (journal w) = ["yarn.tgz"].
Proof.
  set (rw := run namedArchive "/proj" emptyMachine).
  assert (run namedArchive "/proj" emptyMachine = (inr tt, rw.2)) as Hrun
    by (change (rw = (inr tt, rw.2)); apply (surjective_pairing rw)).
  assert ("yarn.tgz" <> "") as Hne by discriminate.
  exists rw.2. split; [reflexivity|]. split; [exact Hne|]. split; [exact Hrun|].
  rewrite (proj2 (explicit_output_path namedArchive "/proj" emptyMachine
                    (inr tt) rw.2 "yarn.tgz" eq_refl Hne Hrun) eq_refl).
  vm_compute. reflexivity.
Defined.

(** C9 as stated fails.  [prepare yarn@2.2.2 --output=] hands the command
    the empty string as path; line 89 takes it for an unset option, so the
    descriptor is resolved and installed, the command completes, and no
    archive is written anywhere. *)
Lemma empty_output_path_packs_nothing :
  output emptyPath = OutputString "" /\
  (run emptyPath "/proj" emptyMachine).1 = inr tt /\
  resolvedLocators (journal (run emptyPath "/proj" emptyMachine).2)
    = [mkLocator Yarn "2.2.2"] /\
  packedFiles (journal (run emptyPath "/proj" emptyMachine).2) = [] /\
  archives (machine (run emptyPath "/proj" emptyMachine).2) = ∅ /\
  stdout (run emptyPath "/proj" emptyMachine).2 = [].
Proof. repeat split; vm_compute; reflexivity. Qed.

Lemma reference_install_layout : InstallLayout (St:=Machine).
Proof.
  intros l m i m' Hens. simpl in *.
  by destruct (ensurePackageManager_completed _ _ _ _ Hens) as (-> & _).
Qed.

Lemma archive_paths_are_relative_witness :
  exists r w before o a later,
    InstallLayout (St:=Machine) /\
    run packing "/proj" emptyMachine = (r, w) /\
    journal w = before ++ CallTar o ["yarn/2.2.2"] a :: later /\
    tar_cwd o = "/home/.corepack" /\
    gzip o = true /\
    exists l i,
      CallEnsurePackageManager l (inr i) ∈ before /\
      location i = path_join (tar_cwd o) (installPath l) /\
      RelativeUndoesJoinAt (St:=Machine) (tar_cwd o) (installPath l) /\
      ["yarn/2.2.2"] = [installPath l].
Proof.
  set (rw := run packing "/proj" emptyMachine).
  assert (exists before o a later,
             journal rw.2 = before ++ CallTar o ["yarn/2.2.2"] a :: later /\
             tar_cwd o = "/home/.corepack") as (before & o & a & later & Hj & Hcwd).
  { eexists [_; _], _, _, []. split; vm_compute; reflexivity. }
  destruct (archive_paths_are_relative packing "/proj" emptyMachine rw.1 rw.2
              before o _ a later reference_install_layout
              (surjective_pairing rw) Hj)
    as (Hgzip & l & i & Hin & _ & Hloc & Hentries).
  exists rw.1, rw.2, before, o, a, later.
  split; [exact reference_install_layout|].
  split; [apply surjective_pairing|]. split; [exact Hj|]. split; [exact Hcwd|].
  split; [exact Hgzip|]. exists l, i.
  split; [exact Hin|]. split; [exact Hloc|].
  split; [apply relative_undoes_join|].
  exact (Hentries (relative_undoes_join _ _)).
Defined.

Lemma activation_persists_witness :
  exists w,
    run activating "/proj" emptyMachine = (inr tt, w) /\
    parseSpec "yarn@1.0.0" "CLI arguments" = inr (mkDescriptor Yarn "1.0.0") /\
    isExactVersion "1.0.0" = true /\
    (loadSpec "/bare" (machine w)).1 = inr NoSpec /\
    activationState (machine w) !! "yarn" = Some (mkLocator Yarn "1.0.0") /\
    resolveDescriptor (mkDescriptor Yarn "1.0.0") (machine w)
      = (inr (Some (mkLocator Yarn "1.0.0")), machine w) /\
    (dispatch Yarn ["--version"] None "/bare" (machine w)).1
      = inr ("1.0.0" +:+ newline, 0).
Proof.
  set (rw := run activating "/proj" emptyMachine).
  assert (run activating "/proj" emptyMachine = (inr tt, rw.2)) as Hrun
    by (change (rw = (inr tt, rw.2)); apply (surjective_pairing rw)).
  assert ((loadSpec "/bare" (machine rw.2)).1 = inr NoSpec) as Hlookup
    by reflexivity.
  destruct (activation_persists activating "/proj" emptyMachine "yarn@1.0.0"
              Yarn "1.0.0" rw.2 (machine rw.2) "/bare"
              eq_refl eq_refl eq_refl eq_refl eq_refl Hrun eq_refl eq_refl
              (or_intror Hlookup))
    as (Hact & _ & Hres & (t & Hin & Hdispatch)).
  exists rw.2. split; [exact Hrun|]. split; [reflexivity|].
  split; [reflexivity|]. split; [exact Hlookup|]. split; [exact Hact|].
  split; [exact Hres|].
  rewrite Hdispatch.
  assert (t = release (mkLocator Yarn "1.0.0")) as ->.
  { assert (installs (machine rw.2) !! installPath (mkLocator Yarn "1.0.0")
              = Some (mkInstallRecord (release (mkLocator Yarn "1.0.0")) true))
      as Hin' by (vm_compute; reflexivity).
    rewrite Hin in Hin'. by injection Hin'. }
  reflexivity.
Defined.

Lemma hydrate_round_trip_witness :
  exists w,
    run packing "/app" emptyMachine = (inr tt, w) /\
    let offline := elsewhere (machine w) in
    let archive := "/app/corepack-yarn-2.2.2.tgz" in
    installs offline = ∅ /\
    networkEnabled offline = false /\
    (loadSpec "/app" offline).1 = inr (Found (mkDescriptor Yarn "2.2.2")) /\
    (hydrate archive offline).1 = inr ("Hydrated yarn@2.2.2" +:+ newline) /\
    installs (hydrate archive offline).2 !! "yarn/2.2.2"
      = installs (machine w) !! "yarn/2.2.2" /\
    traffic (hydrate archive offline).2 = [] /\
    (dispatch Yarn ["--version"] None "/app" (hydrate archive offline).2).1
      = inr ("2.2.2" +:+ newline, 0).
Proof.
  set (rw := run packing "/app" emptyMachine).
  assert (run packing "/app" emptyMachine = (inr tt, rw.2)) as Hrun
    by (change (rw = (inr tt, rw.2)); apply (surjective_pairing rw)).
  exists rw.2. split; [exact Hrun|]. intros offline archive.
  assert ((loadSpec "/app" offline).1 = inr (Found (mkDescriptor Yarn "2.2.2")))
    as Hlookup by reflexivity.
  destruct (hydrate_round_trip packing "/app" emptyMachine "yarn@2.2.2"
              Yarn "2.2.2" rw.2 offline "/app"
              eq_refl eq_refl eq_refl eq_refl eq_refl Hrun
              eq_refl eq_refl eq_refl Hlookup)
    as (record & Hin & Hcomplete & Hout & Hcache & Htraffic & _ & Hversion).
  split; [reflexivity|]. split; [reflexivity|]. split; [exact Hlookup|].
  split; [exact Hout|]. split.
  { transitivity (Some record); [|symmetry; exact Hin].
    transitivity
      (({[installPath (mkLocator Yarn "2.2.2") := record]}
          : gmap string InstallRecord) !! installPath (mkLocator Yarn "2.2.2")).
    - exact (f_equal
               (fun i : gmap string InstallRecord =>
                  i !! installPath (mkLocator Yarn "2.2.2")) Hcache).
    - apply lookup_singleton_eq. }
  split; [exact Htraffic|].
  apply Hversion.
  assert (record = mkInstallRecord (release (mkLocator Yarn "2.2.2")) true) as ->.
  { assert (installs (machine rw.2) !! installPath (mkLocator Yarn "2.2.2")
              = Some (mkInstallRecord (release (mkLocator Yarn "2.2.2")) true))
      as Hin' by (vm_compute; reflexivity).
    rewrite Hin in Hin'. by injection Hin'. }
  reflexivity.
Defined.
End Witnesses.

(** ** Further facts about the command, for any platform *)
Section MoreFacts.
Context {St : Type} `{Platform St}.
Variable this : PrepareCommand.
Variable cwd : string.

(** X1.  Whatever the outcome, what the command printed is one line per
    [tar.c] call that completed, in order: the JSON string of the file name
    with [--json], [Packed <file>] otherwise, each ended by a newline. *)
Theorem output_lines_follow_archives m :
  stdout (run this cwd m).2
    = map (outputLine this) (archivedFiles (journal (run this cwd m).2)).
Proof.
  destruct (run this cwd m) as [r w] eqn:Hrun. simpl.
  refine (run_sum this cwd (fun _ o j => o = map (outputLine this) (archivedFiles j))
            m r w _ _ _ _ _ _ Hrun); trivial.
  - intros r' o1 j1 o2 j2 -> ->. by rewrite archivedFiles_app, map_app.
  - clear. intros x m r w _ Hit. unfold outputLine.
    run_iteration; done.
Qed.

(** X2.  When [this.output] is falsy (the option is absent, [false] or the
    empty string) the command never calls [tar.c] and prints nothing,
    whatever else happens. *)
Theorem no_output_no_archive m :
  truthy (output this) = false ->
  packedFiles (journal (run this cwd m).2) = [] /\
  stdout (run this cwd m).2 = [].
Proof.
  intros Hfalsy. destruct (run this cwd m) as [r w] eqn:Hrun. simpl.
  refine (run_sum this cwd (fun _ o j => packedFiles j = [] /\ o = [])
            m r w _ _ _ _ _ _ Hrun); trivial; try done.
  - intros r' o1 j1 o2 j2 [Hj1 ->] [Hj2 ->].
    by rewrite packedFiles_app, Hj1, Hj2.
  - clear -Hfalsy. intros x m r w _ Hit.
    unfold iteration in Hit. rewrite Hfalsy in Hit.
    run_iteration; done.
Qed.

Lemma iteration_thrown request m r w before ev e later :
  iteration this cwd request (fresh m) = (r, w) ->
  journal w = before ++ ev :: later ->
  thrownBy ev = Some e ->
  later = [] /\ r = inl e.
Proof. intros Hrun Hj He. run_iteration; locate; simplify_eq/=; done. Qed.

Lemma Loop_thrown requests m r w before ev e later :
  Loop (iteration this cwd) requests m r w ->
  journal w = before ++ ev :: later ->
  thrownBy ev = Some e ->
  later = [] /\ r = inl e.
Proof.
  intros Hloop Hj He. revert before Hj.
  induction Hloop as [m|x rest m e' w Hx|x rest m w1 r w2 Hx Hloop IH];
    intros before Hj.
  - by destruct before.
  - eapply iteration_thrown; eauto.
  - simpl in Hj. apply split_after in Hj as [(mid & Hj & _)|(mid & -> & Hj)].
    + by destruct (iteration_thrown _ _ _ _ _ _ _ _ Hx Hj He).
    + eauto.
Qed.

(** X3.  The command swallows no error: a call that throws is the last
    call the command makes, and what it threw is what the command throws
    (so the exit code is 1). *)
Theorem errors_are_not_swallowed m r w before ev e later :
  run this cwd m = (r, w) ->
  journal w = before ++ ev :: later ->
  thrownBy ev = Some e ->
  later = [] /\ r = inl e /\ exitCode r = 1.
Proof.
  intros Hrun Hj He.
  assert (later = [] /\ r = inl e) as [-> ->]; [|done].
  apply run_Invocation in Hrun.
  destruct Hrun as [raw ? ?|e' m0 ? ? ?|ds m0 r w ? ? ? Hloop|r w ? Hit].
  - by destruct before.
  - simpl in Hj. locate. by simplify_eq/=.
  - simpl in Hj. destruct before as [|b before]; simplify_eq/=.
    eapply Loop_thrown; eauto.
  - eapply iteration_thrown; eauto.
Qed.

(** X4.  The command installs only what it has just resolved: every call
    to [ensurePackageManager] comes right after a call to
    [resolveDescriptor] that answered that very locator. *)
Theorem installs_follow_resolution m r w before l a later :
  run this cwd m = (r, w) ->
  journal w = before ++ CallEnsurePackageManager l a :: later ->
  exists before' d,
    before = before' ++ [CallResolveDescriptor d (inr (Some l))].
Proof.
  intros Hrun Hj.
  refine (run_local this cwd
            (fun before e later =>
               forall l a, e = CallEnsurePackageManager l a ->
                 exists before' d,
                   before = before' ++ [CallResolveDescriptor d (inr (Some l))])
            m r w before _ later _ _ _ Hrun Hj l a eq_refl).
  - intros a0 b0 e l0 b1 HP l1 a1 He.
    destruct (HP l1 a1 He) as (before' & d & ->).
    exists (a0 ++ before'), d. by rewrite app_assoc.
  - done.
  - clear. intros x m r w before e later Hit Hj l a ->.
    run_iteration; locate.
    all: first [ by eexists [], _ | by eexists [_], _ ].
Qed.

(** X5.  Every [tar.c] call is gzipped, archives the single entry
    [path.relative(cwd option, location)] of an install that has just
    completed, and comes right after that install when [--activate] is
    not set, and right after the completed activation of the same locator
    when it is: an install whose activation threw is never packed. *)
Theorem packing_follows_install m r w before o entries a later :
  run this cwd m = (r, w) ->
  journal w = before ++ CallTar o entries a :: later ->
  gzip o = true /\
  exists before' l i,
    entries = [path_relative (tar_cwd o) (location i)] /\
    before =
      before' ++ CallEnsurePackageManager l (inr i)
        :: (if activate this
            then [CallActivatePackageManager l (inr tt)]
            else []).
Proof.
  intros Hrun Hj.
  refine (run_local this cwd
            (fun before e later =>
               forall o entries a, e = CallTar o entries a ->
                 gzip o = true /\
                 exists before' l i,
                   entries = [path_relative (tar_cwd o) (location i)] /\
                   before =
                     before' ++ CallEnsurePackageManager l (inr i)
                       :: (if activate this
                           then [CallActivatePackageManager l (inr tt)]
                           else []))
            m r w before _ later _ _ _ Hrun Hj o entries a eq_refl).
  - intros a0 b0 e l0 b1 HP o1 e1 a1 He.
    destruct (HP o1 e1 a1 He) as (? & before' & l1 & i1 & ? & ->).
    split; [done|]. exists (a0 ++ before'), l1, i1. by rewrite app_assoc.
  - done.
  - clear. intros x m r w before e later Hit Hj o entries a ->.
    unfold iteration, activation in Hit.
    destruct (activate this); run_iteration; locate; (split; [done|]);
      repeat match goal with u : unit |- _ => destruct u end.
    all: first [ by eexists [_], _, _ | by eexists [_; _], _, _ ].
Qed.

(** X7.  [getDefaultDescriptors] is called only with [--all] and only as
    the very first call; [loadSpec] is called only without [--all] and
    without a descriptor argument, for the working directory, and only as
    the very first call.  So each is called at most once, and a project
    manifest is never read when the caller said what to prepare. *)
Theorem discovery_comes_first m r w :
  run this cwd m = (r, w) ->
  (forall before a later,
      journal w = before ++ CallGetDefaultDescriptors a :: later ->
      before = [] /\ all this = true /\ spec this = None) /\
  (forall before dir a later,
      journal w = before ++ CallLoadSpec dir a :: later ->
      before = [] /\ dir = cwd /\ all this = false /\ spec this = None).
Proof.
  intros Hrun. apply run_Invocation in Hrun.
  assert (forall ds m r w,
             Loop (iteration this cwd) (map RequestDescriptor ds) m r w ->
             Forall (fun e => match e with
                              | CallGetDefaultDescriptors _ | CallLoadSpec _ _ => False
                              | _ => True
                              end) (journal w)) as Hquiet.
  { clear. intros ds m r w Hloop.
    remember (map RequestDescriptor ds) as requests eqn:Hreq. revert ds Hreq.
    induction Hloop as [m|x rest m e' w Hx|x rest m w1 r w2 Hx Hloop IH];
      intros [|d ds] Hreq; simplify_eq/=.
    - constructor.
    - run_iteration; repeat constructor.
    - apply Forall_app. split; [|by eapply IH].
      clear -Hx. run_iteration; repeat constructor. }
  destruct Hrun as [raw ? ?|e' m0 ? ? ?|ds m0 r w Hall ? ? Hloop|r w Hall Hit].
  - split; intros; by destruct before.
  - simpl. split; intros; locate; done.
  - apply Hquiet in Hloop. simpl. split.
    + intros before a later Hj. destruct before as [|b before]; simplify_eq/=; [done|].
      exfalso. rewrite Forall_forall in Hloop.
      refine (Hloop (CallGetDefaultDescriptors a) _).
      match goal with Hj' : journal w = _ |- _ => rewrite Hj' end.
      apply elem_of_app. right. left.
    + intros before dir a later Hj. destruct before as [|b before]; simplify_eq/=.
      exfalso. rewrite Forall_forall in Hloop.
      refine (Hloop (CallLoadSpec dir a) _).
      match goal with Hj' : journal w = _ |- _ => rewrite Hj' end.
      apply elem_of_app. right. left.
  - unfold thisSpec in Hit. split.
    + intros before a later Hj. destruct (spec this); run_iteration; locate.
    + intros before dir a later Hj.
      destruct (spec this); run_iteration; locate; done.
Qed.

(** X8.  A descriptor argument that [parseSpec] rejects stops the command
    with the error [parseSpec] threw before any collaborator is called:
    nothing is resolved, installed, printed or changed. *)
Theorem malformed_argument_stops_early m raw e :
  all this = false ->
  spec this = Some raw ->
  parseSpec raw "CLI arguments" = inl e ->
  run this cwd m = (inl e, fresh m).
Proof.
  intros Hall Hspec Hparse.
  unfold run, execute, specs, thisSpec. rewrite Hall, Hspec. simpl.
  repeat progress unfold_run. by rewrite Hparse.
Qed.

(** X9.  In a run that completes, every locator that was resolved was
    installed, in the same order and nothing else; with [--activate] the
    same locators were activated, without it none; and the archives
    written are one per resolved locator when [this.output] is truthy and
    none otherwise, each [tar.c] call having completed. *)
Theorem completed_run_bookkeeping m w :
  run this cwd m = (inr tt, w) ->
  ensuredLocators (journal w) = resolvedLocators (journal w) /\
  activatedLocators (journal w)
    = (if activate this then resolvedLocators (journal w) else []) /\
  archivedFiles (journal w) = packedFiles (journal w) /\
  length (packedFiles (journal w))
    = (if truthy (output this) then length (resolvedLocators (journal w)) else 0).
Proof.
  intros Hrun.
  refine (run_sum this cwd
            (fun r _ j =>
               r = inr tt ->
               ensuredLocators j = resolvedLocators j /\
               activatedLocators j
                 = (if activate this then resolvedLocators j else []) /\
               archivedFiles j = packedFiles j /\
               length (packedFiles j)
                 = (if truthy (output this) then length (resolvedLocators j) else 0))
            m (inr tt) w _ _ _ _ _ _ Hrun eq_refl); try done.
  - by destruct (activate this), (truthy (output this)).
  - by destruct (activate this), (truthy (output this)).
  - intros r' o1 j1 o2 j2 H1 H2 ->.
    destruct (H1 eq_refl) as (He1 & Ha1 & Hf1 & Hn1).
    destruct (H2 eq_refl) as (He2 & Ha2 & Hf2 & Hn2).
    rewrite ensuredLocators_app, activatedLocators_app, archivedFiles_app,
      packedFiles_app, resolvedLocators_app, !length_app.
    rewrite He1, He2, Ha1, Ha2, Hf1, Hf2, Hn1, Hn2.
    by destruct (activate this), (truthy (output this)).
  - clear. intros x m r w _ Hit ->.
    unfold iteration, activation in Hit.
    destruct (activate this), (truthy (output this)) eqn:Hout;
      run_iteration; done.
Qed.

Lemma iteration_json b x w1 w2 :
  machine w1 = machine w2 ->
  journal w1 = journal w2 ->
  length (stdout w1) = length (stdout w2) ->
  (iteration this cwd x w1).1 = (iteration (withJson b this) cwd x w2).1 /\
  machine (iteration this cwd x w1).2
    = machine (iteration (withJson b this) cwd x w2).2 /\
  journal (iteration this cwd x w1).2
    = journal (iteration (withJson b this) cwd x w2).2 /\
  length (stdout (iteration this cwd x w1).2)
    = length (stdout (iteration (withJson b this) cwd x w2).2).
Proof.
  destruct w1 as [m1 o1 j1], w2 as [m2 o2 j2]. simpl. intros -> -> Hlen.
  repeat progress unfold_run.
  change (fileName (withJson b this) cwd) with (fileName this cwd).
  repeat (case_match; simplify_eq/=); rewrite ?length_app; simpl; auto.
Qed.

Lemma forOf_json b requests w1 w2 :
  machine w1 = machine w2 ->
  journal w1 = journal w2 ->
  length (stdout w1) = length (stdout w2) ->
  (forOf (iteration this cwd) requests w1).1
    = (forOf (iteration (withJson b this) cwd) requests w2).1 /\
  machine (forOf (iteration this cwd) requests w1).2
    = machine (forOf (iteration (withJson b this) cwd) requests w2).2 /\
  journal (forOf (iteration this cwd) requests w1).2
    = journal (forOf (iteration (withJson b this) cwd) requests w2).2 /\
  length (stdout (forOf (iteration this cwd) requests w1).2)
    = length (stdout (forOf (iteration (withJson b this) cwd) requests w2).2).
Proof.
  revert w1 w2. induction requests as [|x rest IH]; intros w1 w2 Hm Hj Ho.
  - done.
  - simpl. unfold mbind, M_bind, bind.
    destruct (iteration_json b x w1 w2 Hm Hj Ho) as (Hr & Hm' & Hj' & Ho').
    destruct (iteration this cwd x w1) as [[e1|[]] w1'],
      (iteration (withJson b this) cwd x w2) as [[e2|[]] w2'];
      simpl in *; simplify_eq; auto.
Qed.

(** X6.  [--json] changes the wording of the output and nothing else: with
    or without it the command makes the same calls with the same answers,
    leaves the machine in the same state, ends with the same result and
    prints the same number of lines. *)
Theorem json_only_changes_wording b m :
  (run this cwd m).1 = (run (withJson b this) cwd m).1 /\
  machine (run this cwd m).2 = machine (run (withJson b this) cwd m).2 /\
  journal (run this cwd m).2 = journal (run (withJson b this) cwd m).2 /\
  length (stdout (run this cwd m).2)
    = length (stdout (run (withJson b this) cwd m).2).
Proof.
  unfold run, execute. simpl.
  destruct (all this && bool_decide (is_Some (spec this))); [done|].
  unfold mbind, M_bind, bind.
  change (specs (withJson b this)) with (specs this).
  destruct (specs this (fresh m)) as [[e|requests] w0]; [done|].
  by apply forOf_json.
Qed.

Lemma iteration_failure request m e w :
  iteration this cwd request (fresh m) = (inl e, w) ->
  (journal w = [] /\
   exists raw, request = RequestString raw /\
               parseSpec raw "CLI arguments" = inl e) \/
  (exists before ev,
      journal w = before ++ [ev] /\
      (thrownBy ev = Some e \/
       (ev = CallLoadSpec cwd (inr NoProject) /\ e = UsageError msgNoProject) \/
       (ev = CallLoadSpec cwd (inr NoSpec) /\ e = UsageError msgNoSpec) \/
       (exists d, ev = CallResolveDescriptor d (inr None) /\
                  e = UsageError (msgResolveFailed d)))).
Proof.
  intros Hit. destruct request as [|raw|d]; run_iteration.
  all: try (left; split; [done|]; by eexists).
  all: right.
  all: first
    [ by eexists [], _; split; [done|]; eauto 6
    | by eexists [_], _; split; [done|]; eauto 6
    | by eexists [_; _], _; split; [done|]; eauto 6
    | by eexists [_; _; _], _; split; [done|]; eauto 6
    | by eexists [_; _; _; _], _; split; [done|]; eauto 6 ].
Qed.

Lemma Loop_failure ds m e w :
  Loop (iteration this cwd) (map RequestDescriptor ds) m (inl e) w ->
  exists before ev,
    journal w = before ++ [ev] /\
    (thrownBy ev = Some e \/
     (exists d, ev = CallResolveDescriptor d (inr None) /\
                e = UsageError (msgResolveFailed d))).
Proof.
  intros Hloop.
  remember (map RequestDescriptor ds) as requests eqn:Hreq.
  remember (inl e) as r eqn:Hr. revert ds Hreq.
  induction Hloop as [m|x rest m e' w Hx|x rest m w1 r w2 Hx Hloop IH];
    intros [|d ds] Hreq; simplify_eq/=.
  - destruct (iteration_failure _ _ _ _ Hx)
      as [(_ & raw & ? & _)|(before & ev & Hj & Hcause)]; [done|].
    exists before, ev. split; [done|].
    destruct Hcause as [?|[[-> _]|[[-> _]|?]]]; auto.
    + exfalso. clear -Hx Hj. run_iteration; locate.
    + exfalso. clear -Hx Hj. run_iteration; locate.
  - destruct (IH eq_refl ds eq_refl) as (before & ev & Hj & Hcause).
    exists (journal w1 ++ before), ev. split; [|done].
    by rewrite Hj, app_assoc.
Qed.

(** X11.  Every way the command can fail: the usage error of line 51 or
    the error [parseSpec] threw for the descriptor argument, both before
    any call; or else the last call made is the cause, because it threw
    that error, or because it is [loadSpec] answering [NoProject] or
    [NoSpec], or [resolveDescriptor] answering [null], with the matching
    usage error. *)
Theorem every_failure_has_a_cause m e w :
  run this cwd m = (inl e, w) ->
  (journal w = [] /\
   (e = UsageError msgAllWithSpec \/
    exists raw, spec this = Some raw /\ parseSpec raw "CLI arguments" = inl e)) \/
  (exists before ev,
      journal w = before ++ [ev] /\
      (thrownBy ev = Some e \/
       (ev = CallLoadSpec cwd (inr NoProject) /\ e = UsageError msgNoProject) \/
       (ev = CallLoadSpec cwd (inr NoSpec) /\ e = UsageError msgNoSpec) \/
       (exists d, ev = CallResolveDescriptor d (inr None) /\
                  e = UsageError (msgResolveFailed d)))).
Proof.
  intros Hrun. apply run_Invocation in Hrun.
  remember (inl e) as r eqn:Hr.
  destruct Hrun as [raw ? ?|e' m0 ? ? ?|ds m0 r w Hall ? ? Hloop|r w Hall Hit];
    simplify_eq/=.
  - left. auto.
  - right. by eexists [], _; split; [done|]; left.
  - right. destruct (Loop_failure _ _ _ _ Hloop) as (before & ev & -> & Hcause).
    exists (CallGetDefaultDescriptors (inr ds) :: before), ev.
    split; [done|]. destruct Hcause; auto.
  - destruct (iteration_failure _ _ _ _ Hit)
      as [(Hj & raw & Hreq & Hparse)|Hlast]; [|by right].
    left. split; [done|]. right. exists raw. split; [|done].
    unfold thisSpec in Hreq. destruct (spec this); by simplify_eq.
Qed.
End MoreFacts.

Lemma string_length_app (s t : string) :
  String.length (s +:+ t) = String.length s + String.length t.
Proof.
  induction s as [|a s IH]; [done|].
  change (String a s +:+ t) with (String a (s +:+ t)). simpl. by rewrite IH.
Qed.

Lemma string_app_inv_tail (s s' t : string) : s +:+ t = s' +:+ t -> s = s'.
Proof.
  revert s'. induction s as [|a s IH]; intros [|a' s'] Heq; trivial.
  - apply (f_equal String.length) in Heq.
    rewrite !string_length_app in Heq. simpl in Heq. lia.
  - apply (f_equal String.length) in Heq.
    rewrite !string_length_app in Heq. simpl in Heq. lia.
  - change (String a (s +:+ t) = String a' (s' +:+ t)) in Heq.
    injection Heq as -> Heq. f_equal. by apply IH.
Qed.

(** X10.  The template of line 95 determines the locator: two locators
    that give the same string [corepack-<name>-<reference>.tgz] are the
    same locator, the three manager names leaving no doubt where the name
    ends.  This is about the string handed to [path.join], not about the
    path [path.join] makes of it. *)
Theorem versioned_names_do_not_collide l l' :
  versionedName l = versionedName l' -> l = l'.
Proof.
  destruct l as [n v], l' as [n' v']. unfold versionedName. simpl.
  intros Heq. apply (inj (String.app "corepack-")) in Heq.
  destruct n, n'; simpl in Heq;
    try (cbv [String.append] in Heq; discriminate Heq).
  - apply (inj (String.app "npm")), (inj (String.app "-")) in Heq.
    by apply string_app_inv_tail in Heq as ->.
  - apply (inj (String.app "pnpm")), (inj (String.app "-")) in Heq.
    by apply string_app_inv_tail in Heq as ->.
  - apply (inj (String.app "yarn")), (inj (String.app "-")) in Heq.
    by apply string_app_inv_tail in Heq as ->.
Qed.

(** ** The further facts at concrete invocations *)
Module MoreWitnesses.
Import Reference ReferenceFacts Scenarios MoreScenarios.

Lemma no_output_no_archive_witness :
  truthy (output activating) = false /\
  packedFiles (journal (run activating "/proj" emptyMachine).2) = [] /\
  stdout (run activating "/proj" emptyMachine).2 = [].
Proof.
  split; [reflexivity|].
  exact (no_output_no_archive activating "/proj" emptyMachine eq_refl).
Defined.

Lemma errors_are_not_swallowed_witness :
  exists r w before,
    run packingAll "/proj" npmOnly = (r, w) /\
    journal w =
      before ++ CallEnsurePackageManager (mkLocator Pnpm "5.4.0")
                  (inl (Failure "Network access disabled by the environment"))
             :: [] /\
    r = inl (Failure "Network access disabled by the environment") /\
    exitCode r = 1.
Proof.
  set (rw := run packingAll "/proj" npmOnly).
  assert (exists before,
             journal rw.2 =
               before ++ CallEnsurePackageManager (mkLocator Pnpm "5.4.0")
                           (inl (Failure "Network access disabled by the environment"))
                      :: []) as [before Hj].
  { eexists [_; _; _; _; _]. vm_compute. reflexivity. }
  destruct (errors_are_not_swallowed packingAll "/proj" npmOnly rw.1 rw.2
              before _ _ [] (surjective_pairing rw) Hj eq_refl)
    as (_ & Hr & Hexit).
  by exists rw.1, rw.2, before.
Defined.

Lemma installs_follow_resolution_witness :
  exists r w a later before' d,
    run packing "/proj" emptyMachine = (r, w) /\
    journal w =
      [CallResolveDescriptor (mkDescriptor Yarn "2.2.2")
         (inr (Some (mkLocator Yarn "2.2.2")))]
      ++ CallEnsurePackageManager (mkLocator Yarn "2.2.2") a :: later /\
    [CallResolveDescriptor (mkDescriptor Yarn "2.2.2")
       (inr (Some (mkLocator Yarn "2.2.2")))]
      = before' ++ [CallResolveDescriptor d (inr (Some (mkLocator Yarn "2.2.2")))].
Proof.
  set (rw := run packing "/proj" emptyMachine).
  assert (exists a later,
             journal rw.2 =
               [CallResolveDescriptor (mkDescriptor Yarn "2.2.2")
                  (inr (Some (mkLocator Yarn "2.2.2")))]
               ++ CallEnsurePackageManager (mkLocator Yarn "2.2.2") a :: later)
    as (a & later & Hj).
  { eexists _, [_]. vm_compute. reflexivity. }
  destruct (installs_follow_resolution packing "/proj" emptyMachine rw.1 rw.2
              _ _ a later (surjective_pairing rw) Hj) as (before' & d & Hbefore).
  exists rw.1, rw.2, a, later, before', d.
  split; [apply surjective_pairing|]. by split.
Defined.

Lemma packing_follows_install_witness :
  exists r w before o a later,
    run everything "/proj" emptyMachine = (r, w) /\
    journal w = before ++ CallTar o ["yarn/2.2.2"] a :: later /\
    gzip o = true /\
    exists before' l i,
      ["yarn/2.2.2"] = [path_relative (tar_cwd o) (location i)] /\
      before =
        before' ++ [CallEnsurePackageManager l (inr i);
                    CallActivatePackageManager l (inr tt)].
Proof.
  set (rw := run everything "/proj" emptyMachine).
  assert (exists before o a later,
             journal rw.2 = before ++ CallTar o ["yarn/2.2.2"] a :: later)
    as (before & o & a & later & Hj).
  { eexists [_; _; _], _, _, _. vm_compute. reflexivity. }
  destruct (packing_follows_install everything "/proj" emptyMachine rw.1 rw.2
              before o _ a later (surjective_pairing rw) Hj) as (Hgzip & Hbefore).
  exists rw.1, rw.2, before, o, a, later.
  split; [apply surjective_pairing|]. by repeat split.
Defined.

Lemma discovery_comes_first_witness :
  exists r w a later,
    run packingProject "/app" emptyMachine = (r, w) /\
    journal w = [] ++ CallLoadSpec "/app" a :: later /\
    all packingProject = false /\
    spec packingProject = None.
Proof.
  set (rw := run packingProject "/app" emptyMachine).
  assert (exists a later, journal rw.2 = [] ++ CallLoadSpec "/app" a :: later)
    as (a & later & Hj).
  { eexists _, _. vm_compute. reflexivity. }
  destruct (proj2 (discovery_comes_first packingProject "/app" emptyMachine
                     rw.1 rw.2 (surjective_pairing rw)) [] "/app" a later Hj)
    as (_ & _ & Hall & Hspec).
  exists rw.1, rw.2, a, later.
  split; [apply surjective_pairing|]. by repeat split.
Defined.

Lemma malformed_argument_stops_early_witness :
  all unsupported = false /\
  spec unsupported = Some "bun@1.0.0" /\
  parseSpec "bun@1.0.0" "CLI arguments"
    = inl (Failure "Unsupported package manager specification (bun@1.0.0)") /\
  run unsupported "/proj" emptyMachine
    = (inl (Failure "Unsupported package manager specification (bun@1.0.0)"),
       fresh emptyMachine).
Proof.
  split; [reflexivity|]. split; [reflexivity|]. split; [reflexivity|].
  exact (malformed_argument_stops_early unsupported "/proj" emptyMachine
           "bun@1.0.0" _ eq_refl eq_refl eq_refl).
Defined.

Lemma completed_run_bookkeeping_witness :
  exists w,
    run everything "/proj" emptyMachine = (inr tt, w) /\
    ensuredLocators (journal w) = resolvedLocators (journal w) /\
    activatedLocators (journal w) = resolvedLocators (journal w) /\
    archivedFiles (journal w) = packedFiles (journal w) /\
    length (packedFiles (journal w)) = length (resolvedLocators (journal w)).
Proof.
  set (rw := run everything "/proj" emptyMachine).
  assert (rw.1 = inr tt) as Hdone by (vm_compute; reflexivity).
  pose proof (surjective_pairing rw) as Hrun. rewrite Hdone in Hrun.
  exists rw.2. split; [exact Hrun|].
  exact (completed_run_bookkeeping everything "/proj" emptyMachine rw.2 Hrun).
Defined.

Lemma versioned_names_do_not_collide_witness :
  versionedName (mkLocator Yarn "2.2.2")
    = versionedName (mkLocator Yarn ("2.2" +:+ ".2")) /\
  mkLocator Yarn "2.2.2" = mkLocator Yarn ("2.2" +:+ ".2").
Proof.
  split; [reflexivity|].
  exact (versioned_names_do_not_collide (mkLocator Yarn "2.2.2")
           (mkLocator Yarn ("2.2" +:+ ".2")) eq_refl).
Defined.

Lemma every_failure_has_a_cause_witness :
  exists e w,
    run unsatisfiable "/proj" emptyMachine = (inl e, w) /\
    exists before ev,
      journal w = before ++ [ev] /\
      ev = CallResolveDescriptor (mkDescriptor Yarn "^2") (inr None) /\
      e = UsageError (msgResolveFailed (mkDescriptor Yarn "^2")).
Proof.
  set (rw := run unsatisfiable "/proj" emptyMachine).
  assert (exists e, rw.1 = inl e) as [e He] by (eexists; vm_compute; reflexivity).
  assert (run unsatisfiable "/proj" emptyMachine = (inl e, rw.2)) as Hrun
    by (rewrite <- He; apply surjective_pairing).
  assert (journal rw.2
            = [CallResolveDescriptor (mkDescriptor Yarn "^2") (inr None)]) as Hj
    by (vm_compute; reflexivity).
  exists e, rw.2. split; [exact Hrun|].
  destruct (every_failure_has_a_cause unsatisfiable "/proj" emptyMachine e rw.2 Hrun)
    as [[Hnil _]|(before & ev & Hlast & Hcause)].
  { rewrite Hj in Hnil. discriminate Hnil. }
  exists before, ev. split; [exact Hlast|].
  rewrite Hj in Hlast.
  destruct before as [|b [|b' before]]; simplify_eq/=.
  destruct Hcause as [Hthrown|[[Hev _]|[[Hev _]|(d & Hev & ->)]]];
    simplify_eq/=. done.
Defined.
End MoreWitnesses.
